(** * Email assistant: the reply workflow, the listener and the dedup cache

    A shallow embedding of

    - [agents/agent_state.py], [agents/agent_nodes.py] and
      [agents/email_agent.py] (the LangGraph reply workflow),
    - [service/email_listener.py] (the polling listener and its thread pool
      bookkeeping),
    - [system_init.py] and [service/email_listener_idle.py] (the caches of
      processed message ids),

    together with the properties of the specification that concern them. *)

From Stdlib Require Import String Ascii List Bool Arith Lia Permutation.
From Stdlib Require Import DecimalString ZArith.
Import ListNotations.
Local Open Scope list_scope.
Local Open Scope string_scope.

Set Implicit Arguments.

(* ===================================================================== *)
(** * Helpers on Python values                                            *)
(* ===================================================================== *)

(** [sub in s] on Python strings. *)
Fixpoint contains (sub s : string) : bool :=
  match s with
  | EmptyString => String.eqb sub EmptyString
  | String _ rest => String.prefix sub s || contains sub rest
  end.

(** [l[-1]] when [l] is not empty. *)
Definition last_item {A : Type} (l : list A) : option A :=
  match rev l with
  | [] => None
  | x :: _ => Some x
  end.

(* ===================================================================== *)
(** * The reply workflow                                                  *)
(* ===================================================================== *)

(** The incoming mail as the workflow sees it: the dictionary that
    [EmailMessage.to_dict] builds, every key present. *)
Module Mail.

Record t : Type := mk {
  msg_id : string;
  subject : string;
  from_email : string;
  from_name : string;
  to_email : string;
  date : string;
  body : string;
  body_type : string;
  cc : list string;
  bcc : list string;
  attachments : list string
}.

End Mail.

Module Agent.

(** ** Conversation turns (langchain messages) *)

Record ToolCall : Type := {
  tc_name : string;
  tc_args : string
}.

Inductive MsgKind : Type := System | Human | AI | Tool.

(** Every langchain message carries [content] and an optional [name]; only
    an [AIMessage] has [tool_calls]. *)
Record Message : Type := {
  kind : MsgKind;
  content : string;
  name : option string;
  tool_calls : list ToolCall
}.

Definition SystemMessage (c : string) : Message :=
  {| kind := System; content := c; name := None; tool_calls := [] |}.
Definition HumanMessage (c : string) : Message :=
  {| kind := Human; content := c; name := None; tool_calls := [] |}.
Definition AIMessage (c : string) (calls : list ToolCall) : Message :=
  {| kind := AI; content := c; name := None; tool_calls := calls |}.
Definition ToolMessage (c : string) (tool_name : string) : Message :=
  {| kind := Tool; content := c; name := Some tool_name; tool_calls := [] |}.

Definition isinstance_AIMessage (m : Message) : bool :=
  match kind m with AI => true | _ => false end.

(** [hasattr(m, 'tool_calls') and m.tool_calls] *)
Definition has_tool_calls (m : Message) : bool :=
  match kind m, tool_calls m with
  | AI, _ :: _ => true
  | _, _ => false
  end.

(** [hasattr(m, 'name') and m.name == 'send_email_simple'] *)
Definition is_send_email_result (m : Message) : bool :=
  match name m with
  | Some n => String.eqb n "send_email_simple"
  | None => false
  end.

(** ** The state of one run: [class Task(TypedDict)] *)

Record Task : Type := {
  messages : list Message;
  status : string;
  email_message : option Mail.t;   (* [None]: the key is absent or [{}] *)
  error : option string;
  email_replied : bool;
  subject : option string
}.

(** The state of a thread nothing was written to: every [state.get] gives
    its default. *)
Definition empty_task : Task :=
  {| messages := []; status := ""; email_message := None; error := None;
     email_replied := false; subject := None |}.

(** What a node may return under the key ["messages"]: a string or a list
    of messages. *)
Inductive MessagesValue : Type :=
| MsgText (s : string)
| MsgList (l : list Message).

(** The dictionary a node returns; [None] is an absent key.  Keys that
    [Task] does not declare (the ["email_subject"] of [send_email]) are
    not channels of the graph and are left out. *)
Record Update : Type := {
  u_messages : option MessagesValue;
  u_status : option string;
  u_email_message : option (option Mail.t);
  u_error : option string;
  u_email_replied : option bool;
  u_subject : option string
}.

Definition no_update : Update :=
  {| u_messages := None; u_status := None; u_email_message := None;
     u_error := None; u_email_replied := None; u_subject := None |}.

(** [messages: Annotated[List, add_messages]]: the reducer of the channel.
    A value that is not a list is wrapped in one, a string becomes a human
    message, and the new messages are appended (the messages of this
    program carry fresh ids, so none replaces an older one). *)
Definition add_messages (left : list Message) (right : MessagesValue)
  : list Message :=
  match right with
  | MsgText s => (left ++ [HumanMessage s])%list
  | MsgList l => (left ++ l)%list
  end.

Definition overwrite {A : Type} (old : A) (new : option A) : A :=
  match new with Some v => v | None => old end.

Definition apply_update (st : Task) (u : Update) : Task :=
  {| messages := match u_messages u with
                 | Some v => add_messages (messages st) v
                 | None => messages st
                 end;
     status := overwrite (status st) (u_status u);
     email_message := overwrite (email_message st) (u_email_message u);
     error := match u_error u with Some e => Some e | None => error st end;
     email_replied := overwrite (email_replied st) (u_email_replied u);
     subject := match u_subject u with Some s => Some s | None => subject st end |}.

(** ** The outside world *)

Inductive LLMResult : Type :=
| LLMReturn (content : string) (calls : list ToolCall)
| LLMRaise (detail : string).

Inductive SendResult : Type :=
| SendSuccess
| SendFailure (message : string)     (* [{'success': False, 'message': ...}] *)
| SendRaise (detail : string).

(** What a run does to the world, in order. *)
Inductive Event : Type :=
| EvInvokeLLM (conversation : list Message)
| EvSendEmail (to_email : string) (subject : option string) (content : string)
| EvToolCall (call : ToolCall).

Definition Trace := list Event.

(** The collaborators answer as they please: each answer may depend on
    everything that happened before. *)
Record World : Type := {
  llm_invoke : Trace -> list Message -> LLMResult;
  send_simple_email : Trace -> string -> option string -> string -> SendResult;
  run_tool : Trace -> ToolCall -> string
}.

(** [WrokflowNodes.__init__]: the two addresses read from the configuration. *)
Record Config : Type := {
  master_email : string;
  assistant_email : string
}.

(** ** A monad for nodes: the trace of effects is threaded through *)

Definition M (A : Type) : Type := Trace -> A * Trace.

Definition ret {A : Type} (a : A) : M A := fun tr => (a, tr).

Definition bind {A B : Type} (m : M A) (k : A -> M B) : M B :=
  fun tr => let (a, tr') := m tr in k a tr'.

Declare Scope node_scope.
Delimit Scope node_scope with node.
Notation "x <- m ;; k" := (bind m (fun x => k))
  (at level 61, m at next level, right associativity) : node_scope.
Local Open Scope node_scope.

(** ** The nodes: [class WrokflowNodes] *)

Definition nl : string := String (ascii_of_nat 10) EmptyString.

Definition update (m : option MessagesValue) (s : option string)
    (e : option string) (r : option bool) (sj : option string) : Update :=
  {| u_messages := m; u_status := s; u_email_message := None;
     u_error := e; u_email_replied := r; u_subject := sj |}.

(** The text sent when no assistant content is found. *)
Definition default_content : string := "Agent没有正确返回内容～".

(** The two f-strings of [process_email]; the indentation of the template
    lines is not reproduced. *)
Definition email_content (em : Mail.t) : string :=
  nl ++ "主题: " ++ Mail.subject em ++ nl ++
  "发件人: " ++ Mail.from_name em ++ " <" ++ Mail.from_email em ++ ">" ++ nl ++
  "日期: " ++ Mail.date em ++ nl ++
  "正文:" ++ nl ++ Mail.body em ++ nl.

Definition system_prompt (master : string) : string :=
  nl ++ "你是一个精通使用各种工具的邮箱助理：Email Assistant" ++ nl ++
  "你会接收到用户的邮件，如果邮件的发件人为：" ++ master ++
  "，这是系统中的master用户，用来通过邮件来发送指令或请求，则请以一个邮箱助理的身份按照如下规则进行处理：" ++ nl ++
  "- 如果master用户的邮件内容是正常咨询、询问、要求翻译、回信等，代替用户发送邮件等任务，则请按照用户的诉求进行回答，回答内容请作为一封正式邮件的内容" ++ nl ++
  "- 如果master用户要求代发邮件，则可以调用 send_email_tool 这个工具来发送邮件，如果master没有给具体的发送的email地址，则可以调用search_contact 工具查询联系人，找到地址，如果也查询不到，则回复一封咨询油价给master用户，询问email地址" ++ nl ++
  "- 如果用户要求创建定时任务进行提醒，则可以调用 add_daily_task_tool，创建定时任务，不论系统返回是否创建成功，都要回答任务执行的结果，并形成一封正式邮件的内容" ++ nl ++
  "- 如果用户要求查询有哪些定时任务进，则可以调用 get_all_task_tool，创建定时任务，不论系统返回查询是否成功，都要回答任务执行的结果，并形成一封正式邮件的内容" ++ nl ++
  "- 完成任务后，你最终是向" ++ master ++
  "回复邮件告知执行结果，所以回答的内容要正式、有温度，以一个助理的身份回答" ++ nl.

Section Nodes.

Variable cfg : Config.
Variable world : World.

(** [self.llm.invoke(messages)] *)
Definition invoke_llm (conversation : list Message) : M LLMResult :=
  fun tr => (llm_invoke world tr conversation, (tr ++ [EvInvokeLLM conversation])%list).

(** [self.send_email_service.send_simple_email(to_email, subject, content)] *)
Definition do_send (to : string) (subj : option string) (body : string)
  : M SendResult :=
  fun tr => (send_simple_email world tr to subj body,
             (tr ++ [EvSendEmail to subj body])%list).

Definition do_tool (call : ToolCall) : M string :=
  fun tr => (run_tool world tr call, (tr ++ [EvToolCall call])%list).

(** The conversation handed to the model: seeded on the first pass, the
    history afterwards. *)
Definition llm_input (st : Task) (em : Mail.t) : list Message :=
  if Nat.eqb (List.length (messages st)) 0
  then [SystemMessage (system_prompt (master_email cfg));
        HumanMessage (email_content em)]
  else messages st.

Definition last_is_send_email_result (st : Task) : bool :=
  match last_item (messages st) with
  | Some m => is_send_email_result m
  | None => false
  end.

Definition process_email (st : Task) : M Update :=
  match email_message st with
  | None =>
      ret {| u_messages := None; u_status := None;
             u_email_message := Some None; u_error := None;
             u_email_replied := None; u_subject := None |}
  | Some em =>
      if email_replied st then
        ret (update
               (Some (MsgText "Email already replied, skipping duplicate processing"))
               (Some "email_proccessed") None None None)
      else if last_is_send_email_result st then
        ret (update
               (Some (MsgList [AIMessage "邮件已发送，任务完成" []]))
               (Some "success") None (Some true) None)
      else if Mail.from_email em =? assistant_email cfg then
        ret (update (Some (MsgText "Ignore email : Self-sent email"))
               (Some "ignored") None (Some false) None)
      else if Mail.from_email em =? master_email cfg then
        res <- invoke_llm (llm_input st em) ;;
        match res with
        | LLMReturn c calls =>
            ret (update (Some (MsgList [AIMessage c calls]))
                   (Some "agent_replied") None (Some false)
                   (Some ("回复:" ++ Mail.subject em)))
        | LLMRaise e =>
            ret (update
                   (Some (MsgText
                      ("Sorry , Agent process email error, detail as below: "
                       ++ e ++ ",please try again later!")))
                   (Some "agent_processed_failed") (Some e) (Some false)
                   (Some "Agent process email error"))
        end
      else
        ret (update
               (Some (MsgText
                  "It's not master's email, No need to reply to the email."))
               (Some "ignored") None (Some false) None)
  end.

(** The content of the last [AIMessage] of the conversation, [""] when
    there is none. *)
Definition last_ai_content (msgs : list Message) : string :=
  match find isinstance_AIMessage (rev msgs) with
  | Some m => content m
  | None => ""
  end.

Definition reply_body (msgs : list Message) : string :=
  let c := last_ai_content msgs in
  if c =? "" then default_content else c.

Definition send_email (st : Task) : M Update :=
  let to_email := master_email cfg in
  let subj := subject st in
  let body := reply_body (messages st) in
  r <- do_send to_email subj body ;;
  match r with
  | SendSuccess =>
      ret (update (Some (MsgText "Email has been send"))
             (Some "send_email_success") None (Some false) None)
  | SendFailure m =>
      ret (update (Some (MsgText "Email send error"))
             (Some "send_email_failed") (Some m) (Some false) None)
  | SendRaise e =>
      ret (update (Some (MsgText "Email send exception error"))
             (Some "send_email_failed") (Some e) (Some false) None)
  end.

Definition mark_as_replied (st : Task) : M Update :=
  ret (update None (Some "email_proccessed") None (Some true) None).

(** [ToolNode(self.tools)] of langgraph: runs the tool calls of the last
    assistant message and answers each with a tool message named after
    the tool. *)
Fixpoint run_tool_calls (calls : list ToolCall) : M (list Message) :=
  match calls with
  | [] => ret []
  | c :: rest =>
      out <- do_tool c ;;
      outs <- run_tool_calls rest ;;
      ret (ToolMessage out (tc_name c) :: outs)
  end.

Definition tools (st : Task) : M Update :=
  match last_item (messages st) with
  | Some m =>
      outs <- run_tool_calls (tool_calls m) ;;
      ret (update (Some (MsgList outs)) None None None None)
  | None => ret no_update
  end.

(** ** The graph: [EmailAgent.build_workflow] *)

Inductive Node : Type :=
| process_email_node
| tools_node
| send_email_node
| mark_as_replied_node.

Definition route_after_process (st : Task) : Node :=
  if email_replied st then mark_as_replied_node
  else if status st =? "ignored" then mark_as_replied_node
  else match last_item (messages st) with
       | Some m => if has_tool_calls m then tools_node else send_email_node
       | None => send_email_node
       end.

Definition run_node (n : Node) (st : Task) : M Update :=
  match n with
  | process_email_node => process_email st
  | tools_node => tools st
  | send_email_node => send_email st
  | mark_as_replied_node => mark_as_replied st
  end.

(** The edges; [None] is [END]. *)
Definition next_node (n : Node) (st' : Task) : option Node :=
  match n with
  | process_email_node => Some (route_after_process st')
  | tools_node => Some process_email_node
  | send_email_node => Some mark_as_replied_node
  | mark_as_replied_node => None
  end.

(** The result of an invocation: the nodes that ran, and the final state
    unless the recursion limit stopped the graph first. *)
Record Outcome : Type := {
  path : list Node;
  final : option Task
}.

Definition visit (n : Node) (o : Outcome) : Outcome :=
  {| path := n :: path o; final := final o |}.

(** [compiled_workflow.invoke] from node [n], at most [limit] steps. *)
Fixpoint invoke_from (limit : nat) (n : Node) (st : Task) : M Outcome :=
  match limit with
  | 0 => ret {| path := []; final := None |}
  | S k =>
      u <- run_node n st ;;
      let st' := apply_update st u in
      match next_node n st' with
      | None => ret {| path := [n]; final := Some st' |}
      | Some n' =>
          o <- invoke_from k n' st' ;;
          ret (visit n o)
      end
  end.

Definition recursion_limit : nat := 1000.

Definition invoke (st : Task) : M Outcome :=
  invoke_from recursion_limit process_email_node st.

(** [EmailAgent.run]: the input is written over the checkpoint of the
    thread, and the graph starts at its entry point. *)
Definition initial_state (em : Mail.t) : Update :=
  {| u_messages := None; u_status := None; u_email_message := Some (Some em);
     u_error := None; u_email_replied := Some false; u_subject := None |}.

Record RunResult : Type := {
  success : bool;
  result : string
}.

Definition run (checkpoint : Task) (em : Mail.t) : M RunResult :=
  o <- invoke (apply_update checkpoint (initial_state em)) ;;
  match final o with
  | Some st => ret {| success := true; result := status st |}
  | None => ret {| success := false; result := "" |}
  end.

End Nodes.

(** ** Vocabulary of the properties *)

(** The state after the two steps [process_email], [mark_as_replied]. *)
Definition recorded (st : Task) (u : Update) : Task :=
  apply_update (apply_update st u)
    (update None (Some "email_proccessed") None (Some true) None).

(** The sender test of [process_email]: who is answered and who is not. *)
Definition unauthorized (cfg : Config) (em : Mail.t) : Prop :=
  Mail.from_email em <> master_email cfg \/
  Mail.from_email em = assistant_email cfg.

Definition authorized (cfg : Config) (em : Mail.t) : Prop :=
  Mail.from_email em = master_email cfg /\
  Mail.from_email em <> assistant_email cfg.

(** An event that is not a reply to somebody else than [to_email]. *)
Definition sent_to (to_email : string) (ev : Event) : Prop :=
  match ev with
  | EvSendEmail to _ _ => to = to_email
  | _ => True
  end.

(** The run that meets nobody: two steps, the trace untouched. *)
Definition short_circuit (cfg : Config) (world : World) (st : Task)
    (tr : Trace) (st' : Task) : Prop :=
  invoke cfg world st tr =
  ({| path := [process_email_node; mark_as_replied_node];
      final := Some st' |}, tr).

(** Fixtures: a configuration, two senders, and worlds that differ in
    what the model does. *)
Definition demo_cfg : Config :=
  {| master_email := "master@example.com";
     assistant_email := "assistant@example.com" |}.

Definition mail_from (sender subj text : string) : Mail.t :=
  Mail.mk "42" subj sender "Sender" "assistant@example.com"
          "Mon, 02 Nov 2026 10:00:00 +0800" text "plain" [] [] [].

Definition quiet_world (answer : LLMResult) (sent : SendResult) : World :=
  {| llm_invoke := fun _ _ => answer;
     send_simple_email := fun _ _ _ _ => sent;
     run_tool := fun _ _ => "" |}.

(** The state [EmailAgent.run] starts from on a new thread. *)
Definition fresh_task (em : Mail.t) : Task :=
  apply_update empty_task (initial_state em).

End Agent.

(* ===================================================================== *)
(** * The polling listener: [service/email_listener.py]                   *)
(* ===================================================================== *)

Module Listener.

Inductive ListenerMode : Type := IDLE | POLLING | STOPPED.

(** [self._stats] *)
Record Stats : Type := {
  total_received : nat;
  idle_failures : nat;
  polling_count : nat;
  mode_switches : nat;
  processing_tasks : nat;
  completed_tasks : nat;
  connection_reuses : nat;
  connection_restarts : nat
}.

Definition initial_stats : Stats :=
  {| total_received := 0; idle_failures := 0; polling_count := 0;
     mode_switches := 0; processing_tasks := 0; completed_tasks := 0;
     connection_reuses := 0; connection_restarts := 0 |}.

(** A future of the thread pool: one submitted call of
    [_execute_callback] with its argument.  [future_id] stands for the
    identity of the Python object. *)
Record Future : Type := {
  future_id : nat;
  future_emails : list Mail.t
}.

Record EmailListener : Type := {
  mode : ListenerMode;
  running : bool;                   (* [_running] *)
  thread_started : bool;            (* [_thread] is set and started *)
  last_uid : option string;         (* [_last_uid] *)
  receive_service : bool;           (* [_receive_service is not None] *)
  executor : bool;                  (* [_executor is not None] *)
  pending_futures : list Future;    (* [_pending_futures] *)
  futures_created : nat;            (* how many futures the pool has made *)
  stats : Stats
}.

(** [EmailListener.__init__] *)
Definition init : EmailListener :=
  {| mode := STOPPED; running := false; thread_started := false;
     last_uid := None; receive_service := false; executor := false;
     pending_futures := []; futures_created := 0; stats := initial_stats |}.

(** What the mail server answers. *)
Inductive FetchResult : Type :=
| FetchReturn (success : bool) (emails : list Mail.t)
| FetchRaise.

(** The server side of the IDLE handshake of [_try_idle_mode]. *)
Record Transport : Type := {
  login_ok : bool;          (* connect and login do not raise *)
  select_ok : bool;         (* [status == 'OK'] after [select] *)
  supports_idle : bool;     (* [b'IDLE' in caps[0]] *)
  idle_accepted : bool      (* the answer to IDLE starts with [b'+'] *)
}.

Record Server : Type := {
  transport : Transport;
  latest_emails : FetchResult;            (* [receive_latest_emails] at start *)
  unread_emails : nat -> FetchResult      (* the n-th [receive_unread_emails] *)
}.

Definition set_stats (l : EmailListener) (s : Stats) : EmailListener :=
  {| mode := mode l; running := running l; thread_started := thread_started l;
     last_uid := last_uid l; receive_service := receive_service l;
     executor := executor l; pending_futures := pending_futures l;
     futures_created := futures_created l; stats := s |}.

Definition set_mode (l : EmailListener) (m : ListenerMode) : EmailListener :=
  {| mode := m; running := running l; thread_started := thread_started l;
     last_uid := last_uid l; receive_service := receive_service l;
     executor := executor l; pending_futures := pending_futures l;
     futures_created := futures_created l; stats := stats l |}.

Definition set_last_uid (l : EmailListener) (u : option string) : EmailListener :=
  {| mode := mode l; running := running l; thread_started := thread_started l;
     last_uid := u; receive_service := receive_service l;
     executor := executor l; pending_futures := pending_futures l;
     futures_created := futures_created l; stats := stats l |}.

Definition set_receive_service (l : EmailListener) (b : bool) : EmailListener :=
  {| mode := mode l; running := running l; thread_started := thread_started l;
     last_uid := last_uid l; receive_service := b;
     executor := executor l; pending_futures := pending_futures l;
     futures_created := futures_created l; stats := stats l |}.

Definition add_connection_restart (s : Stats) : Stats :=
  {| total_received := total_received s; idle_failures := idle_failures s;
     polling_count := polling_count s; mode_switches := mode_switches s;
     processing_tasks := processing_tasks s;
     completed_tasks := completed_tasks s;
     connection_reuses := connection_reuses s;
     connection_restarts := connection_restarts s + 1 |}.

Definition add_idle_failure (s : Stats) : Stats :=
  {| total_received := total_received s; idle_failures := idle_failures s + 1;
     polling_count := polling_count s; mode_switches := mode_switches s;
     processing_tasks := processing_tasks s;
     completed_tasks := completed_tasks s;
     connection_reuses := connection_reuses s;
     connection_restarts := connection_restarts s |}.

Definition add_poll (s : Stats) : Stats :=
  {| total_received := total_received s; idle_failures := idle_failures s;
     polling_count := polling_count s + 1; mode_switches := mode_switches s;
     processing_tasks := processing_tasks s;
     completed_tasks := completed_tasks s;
     connection_reuses := connection_reuses s + 1;
     connection_restarts := connection_restarts s |}.

Definition add_received (n : nat) (s : Stats) : Stats :=
  {| total_received := total_received s + n; idle_failures := idle_failures s;
     polling_count := polling_count s; mode_switches := mode_switches s;
     processing_tasks := processing_tasks s;
     completed_tasks := completed_tasks s;
     connection_reuses := connection_reuses s;
     connection_restarts := connection_restarts s |}.

Definition set_processing (n : nat) (s : Stats) : Stats :=
  {| total_received := total_received s; idle_failures := idle_failures s;
     polling_count := polling_count s; mode_switches := mode_switches s;
     processing_tasks := n;
     completed_tasks := completed_tasks s;
     connection_reuses := connection_reuses s;
     connection_restarts := connection_restarts s |}.

Definition add_completed (s : Stats) : Stats :=
  {| total_received := total_received s; idle_failures := idle_failures s;
     polling_count := polling_count s; mode_switches := mode_switches s;
     processing_tasks := processing_tasks s;
     completed_tasks := completed_tasks s + 1;
     connection_reuses := connection_reuses s;
     connection_restarts := connection_restarts s |}.

(** ** The thread pool bookkeeping *)

(** [self._executor.submit(self._execute_callback, emails)] followed by
    [self._pending_futures.append(future)]: one future for the whole list. *)
Definition submit (emails : list Mail.t) (l : EmailListener) : EmailListener :=
  let fut := {| future_id := futures_created l; future_emails := emails |} in
  {| mode := mode l; running := running l; thread_started := thread_started l;
     last_uid := last_uid l; receive_service := receive_service l;
     executor := executor l;
     pending_futures := pending_futures l ++ [fut];
     futures_created := S (futures_created l); stats := stats l |}.

(** [_process_new_emails].  Marking the messages read talks to the server
    only, and its failure is logged and dropped, so it leaves the listener
    as it is. *)
Definition _process_new_emails (emails : list Mail.t) (l : EmailListener)
  : EmailListener :=
  match emails with
  | [] => l
  | _ :: _ =>
      let l1 := set_stats l (add_received (List.length emails) (stats l)) in
      if executor l1 then
        let l2 := submit emails l1 in
        set_stats l2 (set_processing (List.length (pending_futures l2)) (stats l2))
      else l1
  end.

(** [_execute_callback]: the callback runs in a worker; whatever it
    raises is caught and logged, so the future never holds an exception.
    [callback_raises] is what the callback does; the result is
    [future.exception() is not None]. *)
Definition _execute_callback (callback_raises : bool) : bool := false.

Definition same_future (f g : Future) : bool :=
  Nat.eqb (future_id f) (future_id g).

(** [list.remove]: the first equal item goes. *)
Fixpoint remove_first (f : Future) (fs : list Future) : list Future :=
  match fs with
  | [] => []
  | g :: rest => if same_future f g then rest else g :: remove_first f rest
  end.

(** [_on_task_complete], the done-callback of a future. *)
Definition _on_task_complete (f : Future) (l : EmailListener) : EmailListener :=
  let pending :=
    if existsb (same_future f) (pending_futures l)
    then remove_first f (pending_futures l)
    else pending_futures l in
  {| mode := mode l; running := running l; thread_started := thread_started l;
     last_uid := last_uid l; receive_service := receive_service l;
     executor := executor l;
     pending_futures := pending;
     futures_created := futures_created l;
     stats := add_completed (set_processing (List.length pending) (stats l)) |}.

(** Every pending future finishes and fires its done-callback. *)
Definition complete_all (l : EmailListener) : EmailListener :=
  fold_left (fun acc f => _on_task_complete f acc) (pending_futures l) l.

(** ** Starting and the listener thread *)

(** [start]: [None] is the missing return value of a successful start,
    [Some false] the refusal to start twice. *)
Definition start (srv : Server) (l : EmailListener)
  : EmailListener * option bool :=
  if running l then (l, Some false)
  else
    let restarts :=
      if receive_service l then stats l else add_connection_restart (stats l) in
    let '(uid, service) :=
      match latest_emails srv with
      | FetchReturn true (e :: _) => (Some (Mail.msg_id e), true)
      | FetchReturn _ _ => (last_uid l, true)
      | FetchRaise => (last_uid l, false)
      end in
    ({| mode := POLLING; running := true; thread_started := true;
        last_uid := uid; receive_service := service; executor := true;
        pending_futures := pending_futures l;
        futures_created := futures_created l; stats := restarts |}, None).

(** The handshake of [_try_idle_mode], up to the assignment
    [self.mode = ListenerMode.IDLE]; [true] when IDLE was entered. *)
Definition _try_idle_mode_handshake (srv : Server) (l : EmailListener)
  : EmailListener * bool :=
  let t := transport srv in
  if negb (login_ok t) then (set_stats l (add_idle_failure (stats l)), false)
  else if negb (select_ok t) then (l, false)
  else if negb (supports_idle t) then (l, false)
  else if negb (idle_accepted t) then (l, false)
  else (set_mode l IDLE, true).

Definition is_new (uid : option string) (e : Mail.t) : bool :=
  match uid with
  | Some u => negb (Mail.msg_id e =? u)
  | None => true
  end.

(** [_run_polling_mode_safe] on the answer of the server; the flag says
    whether the exception was raised again. *)
Definition _run_polling_mode_safe (answer : FetchResult) (l : EmailListener)
  : EmailListener * bool :=
  let l0 :=
    if receive_service l then l
    else set_stats (set_receive_service l true)
                   (add_connection_restart (stats l)) in
  match answer with
  | FetchReturn true emails =>
      let l1 := set_stats l0 (add_poll (stats l0)) in
      match filter (is_new (last_uid l1)) emails with
      | [] => (l1, false)
      | e :: rest =>
          let l2 := set_last_uid l1 (Some (Mail.msg_id e)) in
          (_process_new_emails (e :: rest) l2, false)
      end
  | FetchReturn false _ => (l0, false)
  | FetchRaise =>
      let l1 := set_receive_service l0 false in
      (set_stats l1 (add_connection_restart (stats l1)), true)
  end.

(** [_run_listener]: [rounds] turns of the loop, the [n]-th poll answered
    by [unread_emails srv n].  A raised exception is caught, logged and
    followed by the next turn. *)
Fixpoint _run_listener_from (srv : Server) (n rounds : nat) (l : EmailListener)
  : EmailListener :=
  match rounds with
  | 0 => l
  | S k =>
      if running l
      then _run_listener_from srv (S n) k
             (fst (_run_polling_mode_safe (unread_emails srv n) l))
      else l
  end.

Definition _run_listener (srv : Server) (rounds : nat) (l : EmailListener)
  : EmailListener :=
  _run_listener_from srv 0 rounds l.

(** Fixtures: a server whose IDLE handshake succeeds at every step, and
    one that has no IDLE. *)
Definition idle_server : Server :=
  {| transport := {| login_ok := true; select_ok := true;
                     supports_idle := true; idle_accepted := true |};
     latest_emails := FetchReturn true [];
     unread_emails := fun _ => FetchReturn true [] |}.

Definition letter (uid : string) : Mail.t :=
  Mail.mk uid "Hi" "master@example.com" "Master" "assistant@example.com"
          "Mon, 02 Nov 2026 10:00:00 +0800" "hello" "plain" [] [] [].

End Listener.

(* ===================================================================== *)
(** * The caches of processed ids                                         *)
(* ===================================================================== *)

Module Dedup.

(** A Python [set] of strings, as the list of its elements in the order
    in which the set iterates.  That order is the order of the hash
    table, not the order of insertion: [place s x] is the order of the
    set once [x], not yet a member, has been added to [s]. *)
Definition PySet := list string.

Definition Placement := PySet -> string -> PySet.

(** A set that iterates oldest first, and one that iterates newest first. *)
Definition place_last : Placement := fun s x => (s ++ [x])%list.
Definition place_first : Placement := fun s x => x :: s.

Definition set_contains (s : PySet) (x : string) : bool :=
  existsb (String.eqb x) s.

Section Cache.

Variable place : Placement.

(** [s.add(x)] *)
Definition set_add (s : PySet) (x : string) : PySet :=
  if set_contains s x then s else place s x.

(** [s.difference_update(old)] *)
Definition difference_update (s : PySet) (old : list string) : PySet :=
  filter (fun x => negb (set_contains old x)) s.

(** [set(l)] *)
Definition set_of_list (l : list string) : PySet :=
  fold_left set_add l [].

Definition cache_limit : nat := 1000.
Definition evicted_count : nat := 500.

(** The locked block of [on_new_email] in [system_init.py] for one
    message id: [None] when the id was seen before (the message is
    skipped), the new cache otherwise. *)
Definition mark_processed (cache : PySet) (email_id : string) : option PySet :=
  if set_contains cache email_id then None
  else
    let cache1 := set_add cache email_id in
    if Nat.ltb cache_limit (List.length cache1)
    then Some (difference_update cache1 (firstn evicted_count cache1))
    else Some cache1.

(** [on_new_email]: the cache after the batch, and the messages handed to
    [agent.run], in order. *)
Fixpoint on_new_email (emails : list Mail.t) (cache : PySet)
  : PySet * list Mail.t :=
  match emails with
  | [] => (cache, [])
  | e :: rest =>
      match mark_processed cache (Mail.msg_id e) with
      | None => on_new_email rest cache
      | Some cache' =>
          let '(final, handled) := on_new_email rest cache' in
          (final, e :: handled)
      end
  end.

(** The end of [EmailListenerIdle._handle_new_emails]:
    [set(list(self._processed_uids)[-500:])] once there are more than
    1000 ids. *)
Definition trim_processed_uids (uids : PySet) : PySet :=
  if Nat.ltb cache_limit (List.length uids)
  then set_of_list (skipn (List.length uids - evicted_count) uids)
  else uids.

End Cache.

(** Test data: a message that carries the id [n] in decimal. *)
Definition id_of (n : nat) : string := NilZero.string_of_uint (Nat.to_uint n).

Definition mail_of (n : nat) : Mail.t :=
  Mail.mk (id_of n) "" "" "" "" "" "" "plain" [] [] [].

(** The ids [first], ..., [first + count - 1]. *)
Definition ids_from (first count : nat) : list string :=
  map id_of (seq first count).

End Dedup.

(* ===================================================================== *)
(** * More vocabulary for the reply workflow                              *)
(* ===================================================================== *)

Module AgentTerms.
Import Agent.

(** The replies that the graph itself sends: the calls of
    [send_simple_email] by the [send_email] node.  Mail that a tool sends
    (the tool [send_email_simple] mails whomever the model names) is an
    [EvToolCall], whose effect is the tool's own: it is not counted
    here. *)
Definition is_reply (ev : Event) : bool :=
  match ev with
  | EvSendEmail _ _ _ => true
  | _ => false
  end.

Definition replies (new : list Event) : nat :=
  List.length (filter is_reply new).

(** The tool that the model asked for last. *)
Definition last_call_is_send (calls : list ToolCall) : bool :=
  match last_item calls with
  | Some call => tc_name call =? "send_email_simple"
  | None => false
  end.

(** An answer of the model that keeps the graph in the tool loop: tool
    calls, the last of which is not the send tool. *)
Definition asks_for_tools (r : LLMResult) : bool :=
  match r with
  | LLMReturn _ (call :: calls) => negb (last_call_is_send (call :: calls))
  | _ => false
  end.

(** The graph stopped by the limit before the [send_email] node made a
    call of [send_simple_email]. *)
Definition cut_short (r : Outcome * Trace) (tr : Trace) : Prop :=
  final (fst r) = None /\
  exists new, snd r = (tr ++ new)%list /\ replies new = 0.

(** The turns that the tool node and the model write. *)
Definition written_by_model_or_tool (m : Message) : Prop :=
  kind m = AI \/ kind m = Tool.

(** A world whose model always asks for the contact search. *)
Definition searching_world : World :=
  {| llm_invoke := fun _ _ =>
       LLMReturn "" [{| tc_name := "search_contact"; tc_args := "{}" |}];
     send_simple_email := fun _ _ _ _ => SendSuccess;
     run_tool := fun _ _ => "no contact" |}.

(** A world whose model asks once for the send tool. *)
Definition sending_world : World :=
  {| llm_invoke := fun _ _ =>
       LLMReturn "" [{| tc_name := "send_email_simple"; tc_args := "{}" |}];
     send_simple_email := fun _ _ _ _ => SendSuccess;
     run_tool := fun _ _ => "sent" |}.

End AgentTerms.

(* ===================================================================== *)
(** * The listener: stopping, switching, and sequences of operations      *)
(* ===================================================================== *)

Module ListenerControl.
Import Listener.

Definition set_running (l : EmailListener) (b : bool) : EmailListener :=
  {| mode := mode l; running := b; thread_started := thread_started l;
     last_uid := last_uid l; receive_service := receive_service l;
     executor := executor l; pending_futures := pending_futures l;
     futures_created := futures_created l; stats := stats l |}.

Definition add_mode_switch (s : Stats) : Stats :=
  {| total_received := total_received s; idle_failures := idle_failures s;
     polling_count := polling_count s; mode_switches := mode_switches s + 1;
     processing_tasks := processing_tasks s;
     completed_tasks := completed_tasks s;
     connection_reuses := connection_reuses s;
     connection_restarts := connection_restarts s |}.

(** How [stop] ends. *)
Inductive StopResult : Type :=
| StopReturned
| StopRaisedTypeError.

(** [stop].  The pool is shut down with
    [self._executor.shutdown(wait=True, timeout=30)], and
    [ThreadPoolExecutor.shutdown] has the parameters [wait] and
    [cancel_futures] only: with a pool the call raises [TypeError], after
    [_running] was cleared and before anything is closed. *)
Definition stop (l : EmailListener) : EmailListener * StopResult :=
  if negb (running l) then (l, StopReturned)
  else
    let l1 := set_running l false in
    if executor l1 then (l1, StopRaisedTypeError)
    else (set_mode (set_receive_service l1 false) STOPPED, StopReturned).

(** [switch_mode] *)
Definition switch_mode (m : ListenerMode) (l : EmailListener)
  : EmailListener * bool :=
  match m with
  | IDLE => (l, true)
  | POLLING => (set_stats (set_mode l POLLING) (add_mode_switch (stats l)), true)
  | STOPPED => (l, false)
  end.

(** What can happen to a listener: the calls of its owner, the turns of
    its thread and the callbacks of the pool. *)
Inductive Op : Type :=
| OpStart (srv : Server)
| OpStop
| OpSwitchMode (m : ListenerMode)
| OpPoll (answer : FetchResult)
| OpProcess (emails : list Mail.t)
| OpComplete (f : Future).

Definition apply_op (l : EmailListener) (op : Op) : EmailListener :=
  match op with
  | OpStart srv => fst (start srv l)
  | OpStop => fst (stop l)
  | OpSwitchMode m => fst (switch_mode m l)
  | OpPoll answer => fst (_run_polling_mode_safe answer l)
  | OpProcess emails => _process_new_emails emails l
  | OpComplete f => _on_task_complete f l
  end.

Definition run_ops (ops : list Op) (l : EmailListener) : EmailListener :=
  fold_left apply_op ops l.

(** A done-callback fires for a future that is pending. *)
Definition op_in_time (l : EmailListener) (op : Op) : bool :=
  match op with
  | OpComplete f => existsb (same_future f) (pending_futures l)
  | _ => true
  end.

Fixpoint ops_in_time (ops : list Op) (l : EmailListener) : bool :=
  match ops with
  | [] => true
  | op :: rest => op_in_time l op && ops_in_time rest (apply_op l op)
  end.

(** The ids of the messages that a list of futures holds. *)
Definition submitted_ids (fs : list Future) : list string :=
  flat_map (fun f => map Mail.msg_id (future_emails f)) fs.

End ListenerControl.

(* ===================================================================== *)
(** * Reading the mailbox: [receive_emails_service.py], [email_client.py] *)
(* ===================================================================== *)

Module Inbox.

(** [IMAPClient.fetch_email] followed by [_parse_email_message] for one
    id: the parsed message, nothing (the fetch gave no data), or an
    exception of either step. *)
Inductive FetchOutcome : Type :=
| Fetched (parsed : Mail.t)
| FetchedNothing
| FetchFailed.

(** The mail server behind [IMAPClient]: [search_emails] gives the ids of
    the folder, oldest first, of all messages or of the unseen ones, or
    raises ([None]). *)
Record Mailbox : Type := {
  search_emails : bool -> option (list string);
  fetch_email : string -> FetchOutcome
}.

(** [_parse_email_message(msg, msg_id)] builds the message with the id it
    was given. *)
Definition with_msg_id (uid : string) (m : Mail.t) : Mail.t :=
  Mail.mk uid (Mail.subject m) (Mail.from_email m) (Mail.from_name m)
          (Mail.to_email m) (Mail.date m) (Mail.body m) (Mail.body_type m)
          (Mail.cc m) (Mail.bcc m) (Mail.attachments m).

(** The dictionary that [receive_emails] returns, and the ids it asked
    the server to mark as read. *)
Record ReceiveResult : Type := {
  success : bool;
  emails : list Mail.t;
  count : nat;
  total : nat;
  marked : list string
}.

(** [email_ids[-count:]] under [if count > 0] *)
Definition newest (count : Z) (email_ids : list string) : list string :=
  if (0 <? count)%Z
  then skipn (List.length email_ids - Z.to_nat count) email_ids
  else email_ids.

(** The loop over [reversed(email_ids)]: a message that cannot be fetched
    or parsed is logged and left out. *)
Fixpoint fetch_all (mb : Mailbox) (ids : list string) : list Mail.t :=
  match ids with
  | [] => []
  | uid :: rest =>
      match fetch_email mb uid with
      | Fetched parsed => with_msg_id uid parsed :: fetch_all mb rest
      | FetchedNothing | FetchFailed => fetch_all mb rest
      end
  end.

Definition receive_emails (mb : Mailbox) (count : Z)
    (mark_as_read filter_unseen : bool) : ReceiveResult :=
  match search_emails mb filter_unseen with
  | Some email_ids =>
      let found := fetch_all mb (rev (newest count email_ids)) in
      {| success := true;
         emails := found;
         count := List.length found;
         total := List.length email_ids;
         marked := if mark_as_read then map Mail.msg_id found else [] |}
  | None =>
      {| success := false; emails := []; count := 0; total := 0; marked := [] |}
  end.

Definition receive_latest_emails (mb : Mailbox) (count : Z) : ReceiveResult :=
  receive_emails mb count false false.

Definition receive_unread_emails (mb : Mailbox) (count : Z) : ReceiveResult :=
  receive_emails mb count false true.

(** The answer as the listener reads it: [result['success']] and
    [result['emails']].  [receive_emails] catches what is raised, so the
    listener never sees an exception of the mailbox. *)
Definition answer (r : ReceiveResult) : Listener.FetchResult :=
  Listener.FetchReturn (success r) (emails r).

(** [start(initial_sync_count)] and the polls of [_run_polling_mode_safe]
    ([count=10]) over mailboxes: the one found at the start and the one
    found at the n-th poll. *)
Definition server_over (t : Listener.Transport) (initial_sync_count : Z)
    (at_start : Mailbox) (at_poll : nat -> Mailbox) : Listener.Server :=
  {| Listener.transport := t;
     Listener.latest_emails :=
       answer (receive_latest_emails at_start initial_sync_count);
     Listener.unread_emails :=
       fun n => answer (receive_unread_emails (at_poll n) 10) |}.

(** ** [IMAPClient.store_flags] *)

Inductive StoreOutcome : Type :=
| StoreOK
| StoreRefused          (* a status other than ['OK'] *)
| StoreRaised.

Record StoreResult : Type := {
  store_success : bool;
  store_count : nat;
  store_msg_ids : list string
}.

(** The loop over the ids; [None] when a command raised. *)
Fixpoint store_each (store : string -> StoreOutcome) (msg_ids : list string)
  : option (list string) :=
  match msg_ids with
  | [] => Some []
  | uid :: rest =>
      match store uid with
      | StoreOK => option_map (cons uid) (store_each store rest)
      | StoreRefused => store_each store rest
      | StoreRaised => None
      end
  end.

Definition store_failed : StoreResult :=
  {| store_success := false; store_count := 0; store_msg_ids := [] |}.

Definition store_flags (select_folder_ok : bool)
    (store : string -> StoreOutcome) (msg_ids : list string) : StoreResult :=
  if select_folder_ok then
    match store_each store msg_ids with
    | Some results =>
        {| store_success := true; store_count := List.length results;
           store_msg_ids := results |}
    | None => store_failed
    end
  else store_failed.

(** Fixtures: a mailbox of twelve messages, all unseen, the third of
    which cannot be parsed. *)
Definition twelve : list string :=
  ["1"; "2"; "3"; "4"; "5"; "6"; "7"; "8"; "9"; "10"; "11"; "12"].

Definition demo_mailbox : Mailbox :=
  {| search_emails := fun _ => Some twelve;
     fetch_email := fun uid =>
       if (uid =? "3")%string then FetchFailed
       else Fetched (Listener.letter uid) |}.

Definition plain_transport : Listener.Transport :=
  {| Listener.login_ok := true; Listener.select_ok := true;
     Listener.supports_idle := false; Listener.idle_accepted := false |}.

End Inbox.

(* ===================================================================== *)
(** * The IDLE listener: [service/email_listener_idle.py]                 *)
(* ===================================================================== *)

Module IdleListener.
Import Dedup.

Inductive IdleState : Type := STOPPED | CONNECTING | IDLE | PROCESSING | ERROR.

Record EmailListenerIdle : Type := {
  state : IdleState;
  running : bool;                        (* [_running] *)
  processed_uids : PySet;                (* [_processed_uids] *)
  submitted : list (list Mail.t)         (* the calls of [_executor.submit] *)
}.

(** [EmailListenerIdle.__init__] *)
Definition init : EmailListenerIdle :=
  {| state := STOPPED; running := false; processed_uids := [];
     submitted := [] |}.

(** The answer of the server to [uid('search', None, 'UNSEEN')]. *)
Inductive UidSearch : Type :=
| UidSearchRaised
| UidSearchReturned (ok : bool) (uids : list string).

(** How the loop of [_handle_new_emails] over the unseen uids ends. *)
Inductive LoopEnd : Type :=
| LoopDone (emails_to_process : list Mail.t) (processed : PySet)
| LoopRaisedAttributeError.

Section Order.

Variable place : Placement.

(** [_initial_sync]: the ids of the unread messages go into the set. *)
Definition _initial_sync (unread : Listener.FetchResult)
    (l : EmailListenerIdle) : EmailListenerIdle :=
  match unread with
  | Listener.FetchReturn true found =>
      {| state := state l; running := running l;
         processed_uids :=
           fold_left (set_add place) (map Mail.msg_id found) (processed_uids l);
         submitted := submitted l |}
  | _ => l
  end.

(** [start] *)
Definition start (initial_sync : bool) (unread : Listener.FetchResult)
    (l : EmailListenerIdle) : EmailListenerIdle * bool :=
  if running l then (l, false)
  else
    let l1 := {| state := state l; running := true;
                 processed_uids := processed_uids l;
                 submitted := submitted l |} in
    (if initial_sync then _initial_sync unread l1 else l1, true).

(** The loop of [_handle_new_emails].  For a uid that is not in the set
    the code calls [self._receive_service.receive_single_email_by_uid],
    a method that [ReceiveEmailsService] does not have: the call raises
    [AttributeError] before anything is appended. *)
Fixpoint handle_uids (uids : list string) (emails_to_process : list Mail.t)
    (processed : PySet) : LoopEnd :=
  match uids with
  | [] => LoopDone emails_to_process processed
  | uid :: rest =>
      if set_contains processed uid
      then handle_uids rest emails_to_process processed
      else LoopRaisedAttributeError
  end.

(** [_handle_new_emails]: the whole body is under one [try], and the
    handler logs and returns. *)
Definition _handle_new_emails (found : UidSearch) (l : EmailListenerIdle)
  : EmailListenerIdle :=
  match found with
  | UidSearchRaised => l
  | UidSearchReturned false _ => l
  | UidSearchReturned true uids =>
      match handle_uids uids [] (processed_uids l) with
      | LoopRaisedAttributeError => l
      | LoopDone emails_to_process processed =>
          {| state := state l; running := running l;
             processed_uids := trim_processed_uids place processed;
             submitted :=
               match emails_to_process with
               | [] => submitted l
               | _ :: _ => (submitted l ++ [emails_to_process])%list
               end |}
      end
  end.

(** One turn of the inner loop of [_run_loop] on an open connection:
    enter IDLE, wait, leave IDLE, and fetch when a signal came.  The flag
    says whether the loop goes on with this connection. *)
Definition idle_turn (entered has_signal : bool) (found : UidSearch)
    (l : EmailListenerIdle) : EmailListenerIdle * bool :=
  if negb entered then (l, false)
  else
    let l1 := {| state := PROCESSING; running := running l;
                 processed_uids := processed_uids l;
                 submitted := submitted l |} in
    (if has_signal then _handle_new_emails found l1 else l1, true).

(** What the server does in each turn. *)
Record Turn : Type := {
  entered : bool;
  has_signal : bool;
  found : UidSearch
}.

Fixpoint idle_turns (turns : list Turn) (l : EmailListenerIdle)
  : EmailListenerIdle :=
  match turns with
  | [] => l
  | t :: rest =>
      if running l
      then idle_turns rest (fst (idle_turn (entered t) (has_signal t) (found t) l))
      else l
  end.

End Order.

End IdleListener.

(* ===================================================================== *)
(** * The configuration: [config/email_config.py]                         *)
(* ===================================================================== *)

Module Settings.

(** What [yaml.safe_load] gives: nothing, a text, another scalar (a
    number, a truth value), a sequence or a mapping with text keys, the
    entries of a mapping under distinct keys. *)
#[local] Unset Elimination Schemes.

Inductive Yaml : Type :=
| YNull
| YText (s : string)
| YOther
| YList (items : list Yaml)
| YDict (entries : list (string * Yaml)).

#[local] Set Elimination Schemes.

Inductive Raised : Type :=
| ValueError (message : string)
| TypeError
| KeyError (key : string)
| AttributeError.

(** A result, or the exception that was raised. *)
Definition Try (A : Type) : Type := (Raised + A)%type.

Definition bind {A B : Type} (m : Try A) (k : A -> Try B) : Try B :=
  match m with
  | inl e => inl e
  | inr a => k a
  end.

Declare Scope try_scope.
Delimit Scope try_scope with try.
Notation "x <- m ;; k" := (bind m (fun x => k))
  (at level 61, m at next level, right associativity) : try_scope.
Local Open Scope try_scope.

Definition lookup (key : string) (entries : list (string * Yaml)) : option Yaml :=
  option_map snd (find (fun kv => fst kv =? key) entries).

Definition is_text (key : string) (v : Yaml) : bool :=
  match v with
  | YText s => s =? key
  | _ => false
  end.

(** [key in config]: among the keys of a mapping, a substring of a text,
    an item of a sequence; anything else is not iterable. *)
Definition key_in (key : string) (config : Yaml) : Try bool :=
  match config with
  | YDict entries => inr (existsb (fun kv => fst kv =? key) entries)
  | YText s => inr (contains key s)
  | YList items => inr (existsb (is_text key) items)
  | YNull | YOther => inl TypeError
  end.

(** [config[key]] *)
Definition item (config : Yaml) (key : string) : Try Yaml :=
  match config with
  | YDict entries =>
      match lookup key entries with
      | Some v => inr v
      | None => inl (KeyError key)
      end
  | _ => inl TypeError
  end.

(** [config.get(key, default)] *)
Definition get (config : Yaml) (key : string) (default : Yaml) : Try Yaml :=
  match config with
  | YDict entries =>
      match lookup key entries with
      | Some v => inr v
      | None => inr default
      end
  | _ => inl AttributeError
  end.

(** [[key for key in required_keys if key not in config]] *)
Fixpoint missing_keys (config : Yaml) (required_keys : list string)
  : Try (list string) :=
  match required_keys with
  | [] => inr []
  | key :: rest =>
      present <- key_in key config ;;
      others <- missing_keys config rest ;;
      inr (if present then others else key :: others)
  end.

(** [', '.join(keys)] *)
Fixpoint join (keys : list string) : string :=
  match keys with
  | [] => ""
  | [k] => k
  | k :: rest => k ++ ", " ++ join rest
  end.

(** [ConfigLoader.validate_config_keys] *)
Definition validate_config_keys (config : Yaml) (required_keys : list string)
    (section_name : string) : Try unit :=
  missing <- missing_keys config required_keys ;;
  match missing with
  | [] => inr tt
  | _ :: _ =>
      inl (ValueError (section_name ++ "缺少必要的配置项: " ++ join missing))
  end.

(** [EmailConfig._load_config] on what the file holds; whatever is raised
    is logged and raised again. *)
Definition _load_config (config_section : string) (config : Yaml) : Try Yaml :=
  _ <- validate_config_keys config [config_section; "llm"] "配置文件" ;;
  email_config <- item config config_section ;;
  _ <- validate_config_keys email_config ["email_sender"; "auth_code"]
         ("邮件配置(" ++ config_section ++ ")") ;;
  _ <- validate_config_keys config ["master"] "配置文件" ;;
  master_config <- item config "master" ;;
  _ <- validate_config_keys master_config ["master_email"; "master_name"]
         "master配置" ;;
  inr config.

(** [get_master_info]: the pair of ['master_email'] and ['name']. *)
Definition get_master_info (config : Yaml) : Try (Yaml * Yaml) :=
  master_config <- item config "master" ;;
  master_email <- item master_config "master_email" ;;
  name <- get master_config "master_name" (YText "Ethan") ;;
  inr (master_email, name).

(** [get_imap_config]: server, port, ['email'] and ['auth_code']. *)
Definition get_imap_config (config_section : string) (config : Yaml)
  : Try (Yaml * Yaml * Yaml * Yaml) :=
  email_config <- item config config_section ;;
  imap_server <- get email_config "imap_server" (YText "imap.qq.com") ;;
  imap_port <- get email_config "imap_port" (YText "993") ;;
  email <- item email_config "email_sender" ;;
  auth_code <- item email_config "auth_code" ;;
  inr (imap_server, imap_port, email, auth_code).

(** [get_master_email] *)
Definition get_master_email (config : Yaml) : Try Yaml :=
  master_config <- item config "master" ;;
  item master_config "master_email".

(** What [WrokflowNodes.__init__] reads: [master_email] and
    [assistant_email]. *)
Definition node_addresses (config : Yaml) : Try (Yaml * Yaml) :=
  loaded <- _load_config "email" config ;;
  info <- get_master_info loaded ;;
  imap <- get_imap_config "email" loaded ;;
  inr (fst info, snd (fst imap)).

(** Fixture: a complete configuration, and one whose [master] section is
    a line of text. *)
Definition demo_yaml : Yaml :=
  YDict [("email", YDict [("email_sender", YText "assistant@example.com");
                          ("auth_code", YText "secret")]);
         ("llm", YDict [("model", YText "deepseek-chat");
                        ("api_key", YText "key")]);
         ("master", YDict [("master_email", YText "master@example.com");
                           ("master_name", YText "Master")])].

End Settings.

(* ===================================================================== *)
(** * The sender of a message: [_extract_email_address]                   *)
(* ===================================================================== *)

Module Address.

(** Text is held as its UTF-8 bytes. *)
Definition bytes (codes : list nat) : string :=
  fold_right (fun n s => String (ascii_of_nat n) s) "" codes.

(** [s.index(c)], [None] when [c not in s]. *)
Fixpoint index (c : ascii) (s : string) : option nat :=
  match s with
  | EmptyString => None
  | String a rest =>
      if Ascii.eqb a c then Some 0 else option_map S (index c rest)
  end.

(** [s[start:stop]] *)
Definition slice (start stop : nat) (s : string) : string :=
  substring start (stop - start) s.

Fixpoint reverse (s : string) : string :=
  match s with
  | EmptyString => ""
  | String a rest => reverse rest ++ String a ""
  end.

(** The characters that [str.strip()] removes, in UTF-8: U+0009 to
    U+000D, U+001C to U+0020, U+0085, U+00A0, U+1680, U+2000 to U+200A,
    U+2028, U+2029, U+202F, U+205F and U+3000. *)
Definition whitespace : list string :=
  map bytes
    ([[9]; [10]; [11]; [12]; [13]; [28]; [29]; [30]; [31]; [32];
      [194; 133]; [194; 160]; [225; 154; 128]] ++
     map (fun n => [226; 128; n]) (seq 128 11) ++
     [[226; 128; 168]; [226; 128; 169]; [226; 128; 175]; [226; 129; 159];
      [227; 128; 128]])%list.

(** [s] without the first of [patterns] that it starts with. *)
Fixpoint drop_prefix (patterns : list string) (s : string) : option string :=
  match patterns with
  | [] => None
  | p :: rest =>
      if String.prefix p s
      then Some (substring (String.length p) (String.length s - String.length p) s)
      else drop_prefix rest s
  end.

Fixpoint lstrip_of (patterns : list string) (fuel : nat) (s : string) : string :=
  match fuel with
  | 0 => s
  | S k =>
      match drop_prefix patterns s with
      | Some rest => lstrip_of patterns k rest
      | None => s
      end
  end.

Definition lstrip_chars (patterns : list string) (s : string) : string :=
  lstrip_of patterns (String.length s) s.

Definition rstrip_chars (patterns : list string) (s : string) : string :=
  reverse (lstrip_chars (map reverse patterns) (reverse s)).

(** [s.strip()], and [s.strip] of the quotation mark (the byte 34) *)
Definition strip (s : string) : string :=
  rstrip_chars whitespace (lstrip_chars whitespace s).

Definition strip_quotes (s : string) : string :=
  rstrip_chars [bytes [34]] (lstrip_chars [bytes [34]] s).

Definition is_in (c : ascii) (s : string) : bool :=
  match index c s with
  | Some _ => true
  | None => false
  end.

(** [_extract_email_address]: the name and the address of a header such
    as [Name <user@example.com>]. *)
Definition _extract_email_address (addr_str : string) : string * string :=
  match index "<"%char addr_str, index ">"%char addr_str with
  | Some i, Some j =>
      (strip_quotes (strip (slice 0 i addr_str)),
       strip (slice (i + 1) j addr_str))
  | _, _ => ("", strip addr_str)
  end.

End Address.

(* ===================================================================== *)
(** * Properties of the reply workflow                                    *)
(* ===================================================================== *)

Module AgentProofs.
Import Agent.
Local Open Scope node_scope.

Lemma last_item_app {A : Type} (l : list A) (x : A) :
  last_item (l ++ [x]) = Some x.
Proof. unfold last_item. rewrite rev_app_distr. reflexivity. Qed.

Lemma last_ai_content_app_ai (l : list Message) (c : string) (calls : list ToolCall) :
  last_ai_content (l ++ [AIMessage c calls]) = c.
Proof. unfold last_ai_content. rewrite rev_app_distr. reflexivity. Qed.

Lemma last_ai_content_app_human (l : list Message) (c : string) :
  last_ai_content (l ++ [HumanMessage c]) = last_ai_content l.
Proof. unfold last_ai_content. rewrite rev_app_distr. reflexivity. Qed.

Lemma reply_body_app_human (l : list Message) (c : string) :
  reply_body (l ++ [HumanMessage c]) = reply_body l.
Proof. unfold reply_body. rewrite last_ai_content_app_human. reflexivity. Qed.

(** One step of the graph, as an equation. *)
Lemma invoke_from_step cfg world k n st tr :
  invoke_from cfg world (S k) n st tr =
  let (u, tr1) := run_node cfg world n st tr in
  let st' := apply_update st u in
  match next_node n st' with
  | None => ({| path := [n]; final := Some st' |}, tr1)
  | Some n' =>
      let (o, tr2) := invoke_from cfg world k n' st' tr1 in
      (visit n o, tr2)
  end.
Proof.
  simpl. unfold bind.
  destruct (run_node cfg world n st tr) as [u tr1].
  destruct (next_node n (apply_update st u)); reflexivity.
Qed.

(** The last node: [mark_as_replied] writes the flag and the status and
    the graph ends. *)
Lemma invoke_from_mark cfg world k st tr :
  invoke_from cfg world (S k) mark_as_replied_node st tr =
  ({| path := [mark_as_replied_node];
      final := Some (apply_update st
                 (update None (Some "email_proccessed") None (Some true) None)) |},
   tr).
Proof. rewrite invoke_from_step. reflexivity. Qed.

(** From [send_email] the graph goes to [mark_as_replied] and ends. *)
Lemma invoke_from_send cfg world k st tr :
  invoke_from cfg world (S (S k)) send_email_node st tr =
  let (u, tr1) := send_email cfg world st tr in
  ({| path := [send_email_node; mark_as_replied_node];
      final := Some (apply_update (apply_update st u)
                 (update None (Some "email_proccessed") None (Some true) None)) |},
   tr1).
Proof.
  rewrite invoke_from_step. cbn [run_node].
  destruct (send_email cfg world st tr) as [u tr1].
  cbn [next_node]. cbv zeta. rewrite invoke_from_mark. reflexivity.
Qed.

Lemma recursion_limit_S : recursion_limit = S (S (S 997)).
Proof. reflexivity. Qed.

(** When [process_email] touches nothing outside and the router picks
    [mark_as_replied], the run is those two steps. *)
Lemma invoke_from_skip cfg world k st tr u :
  process_email cfg world st tr = (u, tr) ->
  route_after_process (apply_update st u) = mark_as_replied_node ->
  invoke_from cfg world (S (S k)) process_email_node st tr =
  ({| path := [process_email_node; mark_as_replied_node];
      final := Some (recorded st u) |}, tr).
Proof.
  intros Hp Hr. rewrite invoke_from_step. cbn [run_node]. rewrite Hp.
  cbn [next_node]. cbv zeta. rewrite Hr, invoke_from_mark. reflexivity.
Qed.

(** When the router picks [send_email] after [process_email], the run is
    the three steps [process_email], [send_email], [mark_as_replied]. *)
Lemma invoke_from_reply cfg world k st tr u tr1 :
  process_email cfg world st tr = (u, tr1) ->
  route_after_process (apply_update st u) = send_email_node ->
  invoke_from cfg world (S (S (S k))) process_email_node st tr =
  let (u2, tr2) := send_email cfg world (apply_update st u) tr1 in
  ({| path := [process_email_node; send_email_node; mark_as_replied_node];
      final := Some (recorded (apply_update st u) u2) |}, tr2).
Proof.
  intros Hp Hr. rewrite invoke_from_step. cbn [run_node]. rewrite Hp.
  cbn [next_node]. cbv zeta. rewrite Hr, invoke_from_send.
  destruct (send_email cfg world (apply_update st u) tr1) as [u2 tr2].
  reflexivity.
Qed.

(** [process_email] for the master, when nothing stops it before the
    model is asked. *)
Lemma process_email_master cfg world st tr em :
  email_message st = Some em ->
  email_replied st = false ->
  last_is_send_email_result st = false ->
  authorized cfg em ->
  process_email cfg world st tr =
  (match llm_invoke world tr (llm_input cfg st em) with
   | LLMReturn c calls =>
       update (Some (MsgList [AIMessage c calls])) (Some "agent_replied")
         None (Some false) (Some ("回复:" ++ Mail.subject em))
   | LLMRaise e =>
       update (Some (MsgText
                 ("Sorry , Agent process email error, detail as below: "
                  ++ e ++ ",please try again later!")))
         (Some "agent_processed_failed") (Some e) (Some false)
         (Some "Agent process email error")
   end, (tr ++ [EvInvokeLLM (llm_input cfg st em)])%list).
Proof.
  intros Hem Hr Hl [Hm Ha].
  apply String.eqb_eq in Hm. apply String.eqb_neq in Ha.
  unfold process_email. rewrite Hem, Hr, Hl, Ha, Hm.
  unfold bind, invoke_llm.
  destruct (llm_invoke world tr (llm_input cfg st em)); reflexivity.
Qed.

(** The run of an authorized message whose model call raises: the reply
    goes out under the fixed subject, and its body is computed from the
    assistant turns the conversation already had. *)
Lemma invoke_on_model_failure cfg world st tr em e :
  email_message st = Some em ->
  email_replied st = false ->
  last_is_send_email_result st = false ->
  authorized cfg em ->
  llm_invoke world tr (llm_input cfg st em) = LLMRaise e ->
  exists st',
    invoke cfg world st tr =
    ({| path := [process_email_node; send_email_node; mark_as_replied_node];
        final := Some st' |},
     (tr ++ [EvInvokeLLM (llm_input cfg st em);
             EvSendEmail (master_email cfg) (Some "Agent process email error")
               (reply_body (messages st))])%list) /\
    email_replied st' = true.
Proof.
  intros Hem Hr Hl Hau Hllm. unfold invoke. rewrite recursion_limit_S.
  pose proof (@process_email_master cfg world st tr em Hem Hr Hl Hau) as Hp.
  rewrite Hllm in Hp.
  rewrite (@invoke_from_reply cfg world 997 st tr _ _ Hp).
  - unfold send_email, bind, do_send.
    cbn [apply_update update u_messages u_subject add_messages messages subject].
    rewrite reply_body_app_human.
    destruct (send_simple_email world _ _ _ _);
      (eexists; split; [rewrite <- app_assoc; reflexivity | reflexivity]).
  - unfold route_after_process.
    cbn [apply_update update u_messages u_status u_email_replied overwrite
         add_messages messages status email_replied].
    rewrite last_item_app. reflexivity.
Qed.

(** A run that [EmailAgent.run] starts carries its message to the end: no
    node takes the mail out of a state that has one. *)
Lemma message_is_kept cfg world n st tr em :
  email_message st = Some em ->
  email_message (apply_update st (fst (run_node cfg world n st tr))) = Some em.
Proof.
  intros Hem. destruct n; cbn [run_node].
  - unfold process_email. rewrite Hem.
    destruct (email_replied st); [exact Hem|].
    destruct (last_is_send_email_result st); [exact Hem|].
    destruct (Mail.from_email em =? assistant_email cfg); [exact Hem|].
    destruct (Mail.from_email em =? master_email cfg); [|exact Hem].
    unfold bind, invoke_llm.
    destruct (llm_invoke world tr (llm_input cfg st em)); exact Hem.
  - unfold tools. destruct (last_item (messages st)) as [m|]; [|exact Hem].
    unfold bind. destruct (run_tool_calls world (tool_calls m) tr). exact Hem.
  - unfold send_email, bind, do_send.
    destruct (send_simple_email world tr _ _ _); exact Hem.
  - exact Hem.
Qed.

(** ** The idempotency guard *)


(** ** Messages of other senders *)

(** C2, as the specification has it: the message of an unauthorized
    sender is recorded without the model, without a reply and without a
    new turn.  The last part fails: the text under ["messages"] that
    [process_email] returns is appended to the conversation by the
    reducer of the channel. *)
Lemma unauthorized_message_adds_a_turn :
  ~ (forall cfg world st tr em,
        email_message st = Some em ->
        unauthorized cfg em ->
        exists st',
          short_circuit cfg world st tr st' /\ messages st' = messages st).
Proof.
  intros H.
  pose (em := mail_from "stranger@example.com" "Hi" "hello").
  assert (Hun : unauthorized demo_cfg em) by (left; discriminate).
  destruct (H demo_cfg (quiet_world (LLMReturn "hi" []) SendSuccess)
              (fresh_task em) [] em eq_refl Hun) as [st' [Hrun Hmsgs]].
  unfold short_circuit in Hrun.
  apply (f_equal (fun r => option_map (fun t => List.length (messages t))
                             (final (fst r)))) in Hrun.
  apply (f_equal (@List.length Message)) in Hmsgs.
  cbn [fst final option_map] in Hrun. rewrite Hmsgs in Hrun.
  vm_compute in Hrun. discriminate Hrun.
Qed.

(** C2, amended.  A message whose sender is not the master, or is the
    assistant itself, runs [process_email] and [mark_as_replied] only:
    the model is not invoked and nothing is sent (the trace is
    untouched), the run ends recorded, and exactly one turn is appended
    to the conversation, the value that [process_email] returns under
    ["messages"].  On a state that [process_email] does not stop earlier
    that value is a text, stored as a human turn: ["Ignore email :
    Self-sent email"] for the assistant's own address, ["It's not
    master's email, No need to reply to the email."] for any other
    sender.  The two earlier tests of [process_email] come before the
    sender test: with the flag set the text is ["Email already replied,
    skipping duplicate processing"], and after a result of the send
    tool the turn is the assistant turn ["邮件已发送，任务完成"]. *)
Theorem unauthorized_message_is_recorded cfg world st tr em :
  email_message st = Some em ->
  unauthorized cfg em ->
  exists st',
    short_circuit cfg world st tr st' /\
    messages st' =
    (messages st ++
     [if email_replied st then
        HumanMessage "Email already replied, skipping duplicate processing"
      else if last_is_send_email_result st then
        AIMessage "邮件已发送，任务完成" []
      else if Mail.from_email em =? assistant_email cfg then
        HumanMessage "Ignore email : Self-sent email"
      else
        HumanMessage "It's not master's email, No need to reply to the email."])%list /\
    email_replied st' = true /\ status st' = "email_proccessed".
Proof.
  intros Hem Hun. unfold short_circuit, invoke. rewrite recursion_limit_S.
  destruct (email_replied st) eqn:Hr;
    [|destruct (last_is_send_email_result st) eqn:Hl;
      [|destruct (Mail.from_email em =? assistant_email cfg) eqn:Ha;
        [|destruct (Mail.from_email em =? master_email cfg) eqn:Hm]]].
  - eexists. split; [|split; [|split]].
    + apply invoke_from_skip.
      * unfold process_email. rewrite Hem, Hr. reflexivity.
      * unfold route_after_process. cbn. rewrite Hr. reflexivity.
    + reflexivity.
    + reflexivity.
    + reflexivity.
  - eexists. split; [|split; [|split]].
    + apply invoke_from_skip.
      * unfold process_email. rewrite Hem, Hr, Hl. reflexivity.
      * reflexivity.
    + reflexivity.
    + reflexivity.
    + reflexivity.
  - eexists. split; [|split; [|split]].
    + apply invoke_from_skip.
      * unfold process_email. rewrite Hem, Hr, Hl, Ha. reflexivity.
      * reflexivity.
    + reflexivity.
    + reflexivity.
    + reflexivity.
  - exfalso. apply String.eqb_eq in Hm. apply String.eqb_neq in Ha.
    destruct Hun as [Hun|Hun]; congruence.
  - eexists. split; [|split; [|split]].
    + apply invoke_from_skip.
      * unfold process_email. rewrite Hem, Hr, Hl, Ha, Hm. reflexivity.
      * reflexivity.
    + reflexivity.
    + reflexivity.
    + reflexivity.
Qed.

Lemma unauthorized_message_is_recorded_witness :
  let em := mail_from "assistant@example.com" "Re: Hi" "echo" in
  let world := quiet_world (LLMReturn "hi" []) SendSuccess in
  (email_message (fresh_task em) = Some em /\ unauthorized demo_cfg em) /\
  exists st',
    short_circuit demo_cfg world (fresh_task em) [] st' /\
    messages st' = [HumanMessage "Ignore email : Self-sent email"] /\
    email_replied st' = true /\ status st' = "email_proccessed".
Proof.
  cbv zeta. split.
  - split; [reflexivity | right; reflexivity].
  - exact (@unauthorized_message_is_recorded demo_cfg
             (quiet_world (LLMReturn "hi" []) SendSuccess)
             (fresh_task (mail_from "assistant@example.com" "Re: Hi" "echo")) []
             (mail_from "assistant@example.com" "Re: Hi" "echo")
             eq_refl (or_intror eq_refl)).
Defined.

(** ** Failure of the model *)

(** C3, at the failing input: the master writes, the thread is new and the
    model raises "connection timed out".  The run goes through
    [send_email] and ends recorded with the flag set and the detail in
    [error], but the body that is sent is the placeholder: the apology
    that carries the detail was stored as a human turn, and [send_email]
    reads assistant turns only. *)
Theorem model_failure_reply_lacks_detail :
  let em := mail_from "master@example.com" "Translate this" "hello" in
  let world := quiet_world (LLMRaise "connection timed out") SendSuccess in
  exists st',
    invoke demo_cfg world (fresh_task em) [] =
    ({| path := [process_email_node; send_email_node; mark_as_replied_node];
        final := Some st' |},
     [EvInvokeLLM (llm_input demo_cfg (fresh_task em) em);
      EvSendEmail "master@example.com" (Some "Agent process email error")
        default_content]) /\
    email_replied st' = true /\
    error st' = Some "connection timed out" /\
    contains "connection timed out" default_content = false.
Proof.
  cbv zeta. eexists. split; [|split; [|split]].
  - vm_compute. reflexivity.
  - reflexivity.
  - reflexivity.
  - vm_compute. reflexivity.
Qed.

(** ** The reply that is composed *)

(** C6, as the specification has it: whenever a message of the master
    reaches [send_email], the subject of the reply is ["回复:"] followed
    by the subject of the message.  It fails when the model raised: the
    handler of [process_email] stores a subject of its own. *)
Lemma reply_subject_not_always_prefixed :
  ~ (forall cfg world st em to subj body,
        email_message st = Some em ->
        authorized cfg em ->
        In (EvSendEmail to subj body) (snd (invoke cfg world st [])) ->
        subj = Some ("回复:" ++ Mail.subject em)).
Proof.
  intros H.
  pose (em := mail_from "master@example.com" "Translate this" "hello").
  assert (Hau : authorized demo_cfg em) by (split; [reflexivity | discriminate]).
  specialize (H demo_cfg (quiet_world (LLMRaise "connection timed out") SendSuccess)
                (fresh_task em) em "master@example.com"
                (Some "Agent process email error") default_content eq_refl Hau).
  assert (Hin : In (EvSendEmail "master@example.com"
                      (Some "Agent process email error") default_content)
                   (snd (invoke demo_cfg
                           (quiet_world (LLMRaise "connection timed out") SendSuccess)
                           (fresh_task em) []))).
  { vm_compute. right. left. reflexivity. }
  specialize (H Hin). vm_compute in H. discriminate H.
Qed.

(** C6, amended.  For a message of the master that reaches [send_email]:
    when the model returned content [c] without tool calls, the reply goes
    to the master with subject ["回复:"] followed by the subject of the
    message and with body [c], the content of the last assistant turn, or
    the placeholder when [c] is empty; when the model raised, the subject
    is the fixed text ["Agent process email error"].  In both cases the
    run is [process_email], [send_email], [mark_as_replied] with one
    reply. *)
Theorem reply_subject_and_body cfg world st tr em :
  email_message st = Some em ->
  email_replied st = false ->
  last_is_send_email_result st = false ->
  authorized cfg em ->
  (forall c,
      llm_invoke world tr (llm_input cfg st em) = LLMReturn c [] ->
      exists st',
        invoke cfg world st tr =
        ({| path := [process_email_node; send_email_node; mark_as_replied_node];
            final := Some st' |},
         (tr ++ [EvInvokeLLM (llm_input cfg st em);
                 EvSendEmail (master_email cfg)
                   (Some ("回复:" ++ Mail.subject em)%string)
                   (if (c =? "")%string then default_content else c)])%list) /\
        last_ai_content (messages st ++ [AIMessage c []]) = c) /\
  (forall e,
      llm_invoke world tr (llm_input cfg st em) = LLMRaise e ->
      exists st' body,
        invoke cfg world st tr =
        ({| path := [process_email_node; send_email_node; mark_as_replied_node];
            final := Some st' |},
         (tr ++ [EvInvokeLLM (llm_input cfg st em);
                 EvSendEmail (master_email cfg)
                   (Some "Agent process email error") body])%list)).
Proof.
  intros Hem Hr Hl Hau. split.
  - intros c Hllm. unfold invoke. rewrite recursion_limit_S.
    pose proof (@process_email_master cfg world st tr em Hem Hr Hl Hau) as Hp.
    rewrite Hllm in Hp.
    rewrite (@invoke_from_reply cfg world 997 st tr _ _ Hp).
    + unfold send_email, bind, do_send, reply_body.
      cbn [apply_update update u_messages u_subject add_messages messages subject].
      rewrite last_ai_content_app_ai.
      destruct (send_simple_email world _ _ _ _);
        (eexists; split; [rewrite <- app_assoc; reflexivity | reflexivity]).
    + unfold route_after_process.
      cbn [apply_update update u_messages u_status u_email_replied overwrite
           add_messages messages status email_replied].
      rewrite last_item_app. reflexivity.
  - intros e Hllm.
    destruct (@invoke_on_model_failure cfg world st tr em e Hem Hr Hl Hau Hllm)
      as [st' [Hrun _]].
    exists st', (reply_body (messages st)). exact Hrun.
Qed.

Lemma reply_subject_and_body_witness :
  let em := mail_from "master@example.com" "Translate this" "hello" in
  let world := quiet_world (LLMReturn "你好" []) SendSuccess in
  (email_message (fresh_task em) = Some em /\
   email_replied (fresh_task em) = false /\
   last_is_send_email_result (fresh_task em) = false /\
   authorized demo_cfg em /\
   llm_invoke world [] (llm_input demo_cfg (fresh_task em) em) = LLMReturn "你好" []) /\
  exists st',
    invoke demo_cfg world (fresh_task em) [] =
    ({| path := [process_email_node; send_email_node; mark_as_replied_node];
        final := Some st' |},
     ([] ++ [EvInvokeLLM (llm_input demo_cfg (fresh_task em) em);
             EvSendEmail (master_email demo_cfg)
               (Some ("回复:" ++ Mail.subject em)%string)
               (if ("你好" =? "")%string then default_content else "你好")])%list) /\
    last_ai_content (messages (fresh_task em) ++ [AIMessage "你好" []]) = "你好".
Proof.
  cbv zeta.
  assert (Hau : authorized demo_cfg
                  (mail_from "master@example.com" "Translate this" "hello"))
    by (split; [reflexivity | discriminate]).
  split.
  - repeat split; try reflexivity. discriminate.
  - exact (proj1 (@reply_subject_and_body demo_cfg
                    (quiet_world (LLMReturn "你好" []) SendSuccess)
                    (fresh_task (mail_from "master@example.com" "Translate this" "hello"))
                    [] (mail_from "master@example.com" "Translate this" "hello")
                    eq_refl eq_refl eq_refl Hau) "你好" eq_refl).
Defined.

(** ** Sending, and what follows *)


(** ** The end of every run *)

Lemma final_visit n o : final (visit n o) = final o.
Proof. reflexivity. Qed.

Lemma invoke_from_ends_marked cfg world limit :
  forall n st tr o tr' st',
    invoke_from cfg world limit n st tr = (o, tr') ->
    final o = Some st' ->
    email_replied st' = true /\ status st' = "email_proccessed" /\
    exists before, path o = (before ++ [mark_as_replied_node])%list.
Proof.
  induction limit as [|k IH]; intros n st tr o tr' st' Hrun Hfin.
  - cbn in Hrun. unfold ret in Hrun. inversion Hrun; subst. discriminate.
  - rewrite invoke_from_step in Hrun.
    destruct (run_node cfg world n st tr) as [u tr1] eqn:Hnode.
    cbv zeta in Hrun.
    destruct (next_node n (apply_update st u)) as [n'|] eqn:Hnext.
    + destruct (invoke_from cfg world k n' (apply_update st u) tr1)
        as [o1 tr2] eqn:Hrest.
      inversion Hrun; subst. rewrite final_visit in Hfin.
      destruct (IH _ _ _ _ _ _ Hrest Hfin) as [Hr [Hs [before Hp]]].
      split; [exact Hr|]. split; [exact Hs|].
      exists (n :: before). cbn. rewrite Hp. reflexivity.
    + destruct n; try discriminate.
      cbn in Hnode. unfold mark_as_replied, ret in Hnode.
      inversion Hnode; subst. inversion Hrun; subst.
      cbn in Hfin. inversion Hfin; subst.
      split; [reflexivity|]. split; [reflexivity|].
      exists []. reflexivity.
Qed.

(** C9. A run that ends, from whatever node and state it started, ends
    with [email_replied = true] and [status = "email_proccessed"], and the
    last node it ran is [mark_as_replied].  That holds for the message of
    a stranger too, where the run ends so although nothing was sent: the
    flag alone does not say that a reply went out. *)
Theorem terminated_run_is_marked_replied cfg world limit n st tr o tr' st' :
  invoke_from cfg world limit n st tr = (o, tr') ->
  final o = Some st' ->
  (email_replied st' = true /\ status st' = "email_proccessed" /\
   exists before, path o = (before ++ [mark_as_replied_node])%list) /\
  (let em := mail_from "stranger@example.com" "Hi" "hello" in
   exists st0,
     invoke demo_cfg (quiet_world (LLMReturn "hi" []) SendSuccess)
       (fresh_task em) [] =
     ({| path := [process_email_node; mark_as_replied_node];
         final := Some st0 |}, []) /\
     email_replied st0 = true /\ status st0 = "email_proccessed").
Proof.
  intros Hrun Hfin. split.
  - exact (invoke_from_ends_marked _ _ _ _ _ _ Hrun Hfin).
  - cbv zeta. eexists. split; [vm_compute; reflexivity | split; reflexivity].
Qed.

Lemma terminated_run_is_marked_replied_witness :
  let em := mail_from "master@example.com" "Translate this" "hello" in
  let world := quiet_world (LLMReturn "你好" []) (SendFailure "SMTP down") in
  exists o tr' st',
    (invoke_from demo_cfg world 3 process_email_node (fresh_task em) [] = (o, tr') /\
     final o = Some st') /\
    email_replied st' = true /\ status st' = "email_proccessed" /\
    exists before, path o = (before ++ [mark_as_replied_node])%list.
Proof.
  cbv zeta. do 3 eexists. split.
  - split; [vm_compute; reflexivity | reflexivity].
  - apply (proj1 (@terminated_run_is_marked_replied demo_cfg
             (quiet_world (LLMReturn "你好" []) (SendFailure "SMTP down"))
             3 process_email_node
             (fresh_task (mail_from "master@example.com" "Translate this" "hello"))
             [] _ _ _ ltac:(vm_compute; reflexivity) eq_refl)).
Defined.

(** ** The recipient *)

(** Every node only adds to the trace, and what it adds is no reply to
    anybody but the master. *)
Lemma run_tool_calls_trace cfg world calls :
  forall tr, exists new,
    snd (run_tool_calls world calls tr) = (tr ++ new)%list /\
    Forall (sent_to (master_email cfg)) new.
Proof.
  induction calls as [|c rest IH]; intros tr.
  - exists []. split; [cbn; now rewrite app_nil_r | constructor].
  - cbn [run_tool_calls]. unfold bind, do_tool.
    destruct (IH (tr ++ [EvToolCall c])%list) as [new [Hnew Hall]].
    destruct (run_tool_calls world rest (tr ++ [EvToolCall c])%list) as [outs tr2].
    cbn [snd] in *. exists (EvToolCall c :: new). split.
    + rewrite Hnew, <- app_assoc. reflexivity.
    + constructor; [exact I | exact Hall].
Qed.

Lemma run_node_trace cfg world n st tr :
  exists new,
    snd (run_node cfg world n st tr) = (tr ++ new)%list /\
    Forall (sent_to (master_email cfg)) new.
Proof.
  destruct n; cbn [run_node].
  - unfold process_email.
    destruct (email_message st) as [em|];
      [|exists []; split; [cbn; now rewrite app_nil_r | constructor]].
    destruct (email_replied st);
      [exists []; split; [cbn; now rewrite app_nil_r | constructor]|].
    destruct (last_is_send_email_result st);
      [exists []; split; [cbn; now rewrite app_nil_r | constructor]|].
    destruct (Mail.from_email em =? assistant_email cfg);
      [exists []; split; [cbn; now rewrite app_nil_r | constructor]|].
    destruct (Mail.from_email em =? master_email cfg);
      [|exists []; split; [cbn; now rewrite app_nil_r | constructor]].
    exists [EvInvokeLLM (llm_input cfg st em)]. unfold bind, invoke_llm.
    split; [|repeat constructor].
    destruct (llm_invoke world tr (llm_input cfg st em)); reflexivity.
  - unfold tools.
    destruct (last_item (messages st)) as [m|];
      [|exists []; split; [cbn; now rewrite app_nil_r | constructor]].
    unfold bind.
    destruct (run_tool_calls_trace cfg world (tool_calls m) tr) as [new [Hnew Hall]].
    destruct (run_tool_calls world (tool_calls m) tr) as [outs tr1].
    exists new. split; [exact Hnew | exact Hall].
  - exists [EvSendEmail (master_email cfg) (subject st) (reply_body (messages st))].
    unfold send_email, bind, do_send. split.
    + destruct (send_simple_email world tr _ _ _); reflexivity.
    + repeat constructor.
  - exists []. split; [cbn; now rewrite app_nil_r | constructor].
Qed.

Lemma invoke_from_trace cfg world limit :
  forall n st tr, exists new,
    snd (invoke_from cfg world limit n st tr) = (tr ++ new)%list /\
    Forall (sent_to (master_email cfg)) new.
Proof.
  induction limit as [|k IH]; intros n st tr.
  - exists []. split; [cbn; now rewrite app_nil_r | constructor].
  - rewrite invoke_from_step.
    destruct (run_node_trace cfg world n st tr) as [new1 [Hnew1 Hall1]].
    destruct (run_node cfg world n st tr) as [u tr1]. cbn [snd] in Hnew1.
    cbv zeta. destruct (next_node n (apply_update st u)) as [n'|].
    + destruct (IH n' (apply_update st u) tr1) as [new2 [Hnew2 Hall2]].
      destruct (invoke_from cfg world k n' (apply_update st u) tr1) as [o tr2].
      cbn [snd] in *. exists (new1 ++ new2)%list. split.
      * rewrite Hnew2, Hnew1, app_assoc. reflexivity.
      * apply Forall_app. split; assumption.
    + exists new1. split; [exact Hnew1 | exact Hall1].
Qed.

(** C10. The reply that [send_email] composes is addressed to the master
    address of the configuration, whatever the state holds: the sender,
    the recipient and the cc list of the incoming message play no part.
    Over a whole run, every reply that is sent goes to that address. *)
Theorem reply_recipient_is_master cfg world :
  (forall st tr,
      snd (send_email cfg world st tr) =
      (tr ++ [EvSendEmail (master_email cfg) (subject st)
                (reply_body (messages st))])%list) /\
  (forall limit n st tr, exists new,
      snd (invoke_from cfg world limit n st tr) = (tr ++ new)%list /\
      Forall (sent_to (master_email cfg)) new).
Proof.
  split.
  - intros st tr. unfold send_email, bind, do_send.
    destruct (send_simple_email world tr _ _ _); reflexivity.
  - intros limit. apply invoke_from_trace.
Qed.

End AgentProofs.

(* ===================================================================== *)
(** * Properties of the listener                                          *)
(* ===================================================================== *)

Module ListenerProofs.
Import Listener.

Lemma mode_process_new_emails emails l :
  mode (_process_new_emails emails l) = mode l.
Proof.
  unfold _process_new_emails. destruct emails as [|e rest]; [reflexivity|].
  cbn. destruct (executor l); reflexivity.
Qed.

Lemma running_process_new_emails emails l :
  running (_process_new_emails emails l) = running l.
Proof.
  unfold _process_new_emails. destruct emails as [|e rest]; [reflexivity|].
  cbn. destruct (executor l); reflexivity.
Qed.

Lemma mode_run_polling_mode_safe answer l :
  mode (fst (_run_polling_mode_safe answer l)) = mode l.
Proof.
  unfold _run_polling_mode_safe.
  destruct answer as [[|] emails|].
  - destruct (filter _ emails) as [|e rest].
    + destruct (receive_service l); reflexivity.
    + cbn [fst]. rewrite mode_process_new_emails.
      destruct (receive_service l); reflexivity.
  - destruct (receive_service l); reflexivity.
  - destruct (receive_service l); reflexivity.
Qed.

Lemma mode_run_listener_from srv rounds :
  forall n l, mode (_run_listener_from srv n rounds l) = mode l.
Proof.
  induction rounds as [|k IH]; intros n l; [reflexivity|].
  cbn [_run_listener_from]. destruct (running l); [|reflexivity].
  rewrite IH. apply mode_run_polling_mode_safe.
Qed.

(** ** The thread pool *)

(** C4, as the specification has it: a batch of N messages becomes N units
    of work, and the count of completed tasks grows by N once they have
    finished.  A batch of two is one future and counts once. *)
Lemma batch_of_two_counts_once :
  ~ (forall emails l,
        executor l = true ->
        pending_futures l = [] ->
        List.length (pending_futures (_process_new_emails emails l))
          = List.length emails /\
        completed_tasks (stats (complete_all (_process_new_emails emails l)))
          = completed_tasks (stats l) + List.length emails).
Proof.
  intros H.
  destruct (H [letter "7"; letter "8"] (fst (start idle_server init))
              eq_refl eq_refl) as [_ Hcount].
  vm_compute in Hcount. discriminate Hcount.
Qed.

(** C4, amended.  A batch that is not empty is submitted to the pool as
    one unit of work, a single future that holds the whole batch;
    [_process_new_emails] returns with that future pending and the count
    of completed tasks unchanged; and when the future finishes, whether
    its callback failed or not, the count grows by exactly 1. *)
Theorem batch_is_one_unit_of_work emails l :
  emails <> [] ->
  executor l = true ->
  let fut := {| future_id := futures_created l; future_emails := emails |} in
  let l1 := _process_new_emails emails l in
  pending_futures l1 = (pending_futures l ++ [fut])%list /\
  completed_tasks (stats l1) = completed_tasks (stats l) /\
  (forall callback_raises, _execute_callback callback_raises = false) /\
  completed_tasks (stats (_on_task_complete fut l1))
    = completed_tasks (stats l) + 1 /\
  (pending_futures l = [] ->
   completed_tasks (stats (complete_all l1)) = completed_tasks (stats l) + 1 /\
   pending_futures (complete_all l1) = []).
Proof.
  intros Hne Hex. cbv zeta.
  destruct emails as [|e rest]; [congruence|].
  unfold _process_new_emails. cbn [set_stats executor]. rewrite Hex.
  cbn [submit set_stats pending_futures stats futures_created
       add_received set_processing completed_tasks].
  split; [reflexivity|]. split; [reflexivity|]. split; [reflexivity|].
  split; [reflexivity|].
  intros Hnone. unfold complete_all, _on_task_complete, same_future.
  cbn. rewrite Hnone. cbn. rewrite Hnone. cbn.
  rewrite Nat.eqb_refl. cbn.
  split; reflexivity.
Qed.

Lemma batch_is_one_unit_of_work_witness :
  let emails := [letter "7"; letter "8"; letter "9"] in
  let l := fst (start idle_server init) in
  (emails <> [] /\ executor l = true) /\
  let fut := {| future_id := futures_created l; future_emails := emails |} in
  let l1 := _process_new_emails emails l in
  pending_futures l1 = (pending_futures l ++ [fut])%list /\
  completed_tasks (stats l1) = completed_tasks (stats l) /\
  (forall callback_raises, _execute_callback callback_raises = false) /\
  completed_tasks (stats (_on_task_complete fut l1))
    = completed_tasks (stats l) + 1 /\
  (pending_futures l = [] ->
   completed_tasks (stats (complete_all l1)) = completed_tasks (stats l) + 1 /\
   pending_futures (complete_all l1) = []).
Proof.
  cbv zeta. split.
  - split; [discriminate | reflexivity].
  - apply (@batch_is_one_unit_of_work [letter "7"; letter "8"; letter "9"]
             (fst (start idle_server init))).
    + discriminate.
    + reflexivity.
Defined.

(** ** The mode of the listener *)

(** C8, as the specification has it: when the server supports IDLE and
    accepts the handshake, the listener is in the real-time mode after
    its start.  It is not: [start] sets the polling mode and the thread
    never tries IDLE. *)
Lemma idle_capable_server_is_polled :
  ~ (forall srv rounds,
        snd (_try_idle_mode_handshake srv init) = true ->
        mode (_run_listener srv rounds (fst (start srv init))) = IDLE).
Proof.
  intros H. specialize (H idle_server 1 eq_refl).
  vm_compute in H. discriminate H.
Qed.

(** C8, amended.  A listener that is started is in polling mode, whatever
    the server supports, and stays in polling mode through every turn of
    its thread; polling needs nothing else: the unread messages that a
    poll finds new are handed to the pool. *)
Theorem listener_always_polls srv l rounds :
  running l = false ->
  let l1 := fst (start srv l) in
  mode l1 = POLLING /\ running l1 = true /\ executor l1 = true /\
  mode (_run_listener srv rounds l1) = POLLING /\
  (forall emails e rest,
      filter (is_new (last_uid l1)) emails = e :: rest ->
      pending_futures (fst (_run_polling_mode_safe (FetchReturn true emails) l1)) =
      (pending_futures l1 ++
        [{| future_id := futures_created l1; future_emails := e :: rest |}])%list).
Proof.
  intros Hrun. cbv zeta.
  assert (Hstart : mode (fst (start srv l)) = POLLING /\
                   running (fst (start srv l)) = true /\
                   executor (fst (start srv l)) = true).
  { unfold start. rewrite Hrun.
    destruct (latest_emails srv) as [[|] [|e0 r0]|]; repeat split. }
  destruct Hstart as [Hm [Hr He]].
  split; [exact Hm|]. split; [exact Hr|]. split; [exact He|]. split.
  - unfold _run_listener. rewrite mode_run_listener_from. exact Hm.
  - intros emails e rest Hnew. unfold _run_polling_mode_safe.
    destruct (receive_service (fst (start srv l))) eqn:Hs.
    + cbn [set_stats last_uid]. rewrite Hnew. cbn [fst].
      unfold _process_new_emails. cbn [set_last_uid set_stats executor].
      rewrite He. reflexivity.
    + cbn [set_stats set_receive_service last_uid]. rewrite Hnew. cbn [fst].
      unfold _process_new_emails.
      cbn [set_last_uid set_stats set_receive_service executor].
      rewrite He. reflexivity.
Qed.

Lemma listener_always_polls_witness :
  running init = false /\
  let l1 := fst (start idle_server init) in
  mode l1 = POLLING /\ running l1 = true /\ executor l1 = true /\
  mode (_run_listener idle_server 5 l1) = POLLING /\
  (forall emails e rest,
      filter (is_new (last_uid l1)) emails = e :: rest ->
      pending_futures (fst (_run_polling_mode_safe (FetchReturn true emails) l1)) =
      (pending_futures l1 ++
        [{| future_id := futures_created l1; future_emails := e :: rest |}])%list).
Proof.
  split.
  - reflexivity.
  - apply (@listener_always_polls idle_server init 5). reflexivity.
Defined.

End ListenerProofs.

(* ===================================================================== *)
(** * Properties of the caches of processed ids                           *)
(* ===================================================================== *)

Module DedupProofs.
Import Dedup.

Lemma set_contains_In s x : set_contains s x = true <-> In x s.
Proof.
  unfold set_contains. rewrite existsb_exists. split.
  - intros [y [Hin Heq]]. apply String.eqb_eq in Heq. now subst.
  - intros Hin. exists x. split; [exact Hin | apply String.eqb_refl].
Qed.

Lemma set_contains_false s x : set_contains s x = false <-> ~ In x s.
Proof.
  rewrite <- set_contains_In. destruct (set_contains s x); split; congruence.
Qed.

Lemma filter_none {A : Type} (f : A -> bool) (l : list A) :
  (forall x, In x l -> f x = false) -> filter f l = [].
Proof.
  induction l as [|a l IH]; intros H; [reflexivity|].
  cbn. rewrite (H a (or_introl eq_refl)). apply IH.
  intros x Hx. apply H. now right.
Qed.

Lemma filter_all {A : Type} (f : A -> bool) (l : list A) :
  (forall x, In x l -> f x = true) -> filter f l = l.
Proof.
  induction l as [|a l IH]; intros H; [reflexivity|].
  cbn. rewrite (H a (or_introl eq_refl)). f_equal. apply IH.
  intros x Hx. apply H. now right.
Qed.

Lemma NoDup_app_apart {A : Type} (a b : list A) :
  NoDup (a ++ b)%list -> forall x, In x a -> ~ In x b.
Proof.
  induction a as [|y a IH]; intros Hnd x Hin; [destruct Hin|].
  cbn in Hnd. apply NoDup_cons_iff in Hnd. destruct Hnd as [Hy Hnd].
  destruct Hin as [->|Hin].
  - intros Hb. apply Hy. apply in_or_app. now right.
  - now apply IH.
Qed.

(** Removing a prefix of the iteration from a set leaves the rest of the
    iteration. *)
Lemma difference_update_prefix (a b : list string) :
  NoDup (a ++ b)%list -> difference_update (a ++ b)%list a = b.
Proof.
  intros Hnd. unfold difference_update. rewrite filter_app.
  rewrite filter_none, filter_all; [reflexivity| |].
  - intros x Hx. apply negb_true_iff, set_contains_false.
    intros Hf. exact (@NoDup_app_apart _ a b Hnd x Hf Hx).
  - intros x Hx. apply negb_false_iff, set_contains_In. exact Hx.
Qed.

Lemma difference_update_firstn (s : PySet) (n : nat) :
  NoDup s -> difference_update s (firstn n s) = skipn n s.
Proof.
  intros Hnd. rewrite <- (firstn_skipn n s) in Hnd.
  pose proof (@difference_update_prefix _ _ Hnd) as H.
  rewrite (firstn_skipn n s) in H. exact H.
Qed.

Section AnyOrder.

Variable place : Placement.
Hypothesis place_perm : forall s x, Permutation (x :: s) (place s x).

Lemma set_add_NoDup s x : NoDup s -> NoDup (set_add place s x).
Proof.
  intros Hnd. unfold set_add. destruct (set_contains s x) eqn:Hc; [exact Hnd|].
  apply (Permutation_NoDup (place_perm s x)). constructor; [|exact Hnd].
  now apply set_contains_false.
Qed.

Lemma set_add_length_new s x :
  set_contains s x = false -> List.length (set_add place s x) = S (List.length s).
Proof.
  intros Hc. unfold set_add. rewrite Hc.
  now rewrite <- (Permutation_length (place_perm s x)).
Qed.

Lemma set_add_length_le s x :
  List.length (set_add place s x) <= S (List.length s).
Proof.
  unfold set_add. destruct (set_contains s x) eqn:Hc.
  - lia.
  - rewrite <- (Permutation_length (place_perm s x)). cbn. lia.
Qed.

(** The bound of the cache of [on_new_email], whatever the order of the
    set: a cache of at most 1000 distinct ids stays so; the add that
    makes it 1001 removes 500 ids at once and leaves 501. *)
Lemma mark_processed_bound cache email_id cache' :
  NoDup cache ->
  List.length cache <= cache_limit ->
  mark_processed place cache email_id = Some cache' ->
  NoDup cache' /\
  List.length cache' <= cache_limit /\
  (List.length cache < cache_limit -> List.length cache' = S (List.length cache)) /\
  (List.length cache = cache_limit ->
   cache' = skipn evicted_count (set_add place cache email_id) /\
   List.length cache' = S evicted_count).
Proof.
  intros Hnd Hlen. unfold mark_processed. cbv zeta.
  destruct (set_contains cache email_id) eqn:Hc; [discriminate|].
  pose proof (set_add_length_new _ _ Hc) as Hadd.
  pose proof (set_add_NoDup email_id Hnd) as Hnd1.
  destruct (Nat.ltb_spec cache_limit (List.length (set_add place cache email_id)))
    as [Hover|Hunder].
  - rewrite (difference_update_firstn _ Hnd1). intros Heq.
    assert (E : skipn evicted_count (set_add place cache email_id) = cache')
      by congruence.
    clear Heq. subst cache'.
    assert (Hfull : List.length cache = cache_limit) by lia.
    unfold cache_limit, evicted_count in *.
    split; [|split; [|split]].
    + rewrite <- (firstn_skipn evicted_count (set_add place cache email_id)) in Hnd1.
      exact (NoDup_app_remove_l _ _ Hnd1).
    + rewrite length_skipn. lia.
    + lia.
    + intros _. split; [reflexivity|].
      rewrite length_skipn, Hadd, Hfull. reflexivity.
  - intros Heq.
    assert (E : set_add place cache email_id = cache') by congruence.
    clear Heq. subst cache'.
    split; [exact Hnd1|]. split; [exact Hunder|]. split; [intros _; exact Hadd|].
    intros Hfull. lia.
Qed.

(** The same bound over a whole batch. *)
Lemma on_new_email_bound emails :
  forall cache,
    NoDup cache ->
    List.length cache <= cache_limit ->
    NoDup (fst (on_new_email place emails cache)) /\
    List.length (fst (on_new_email place emails cache)) <= cache_limit.
Proof.
  induction emails as [|e rest IH]; intros cache Hnd Hlen; [now split|].
  cbn [on_new_email].
  destruct (mark_processed place cache (Mail.msg_id e)) as [cache'|] eqn:Hm.
  - destruct (mark_processed_bound _ Hnd Hlen Hm) as [Hnd' [Hlen' _]].
    specialize (IH cache' Hnd' Hlen').
    destruct (on_new_email place rest cache') as [final handled]. exact IH.
  - apply IH; assumption.
Qed.

Lemma set_of_list_length_from l :
  forall acc, List.length (fold_left (set_add place) l acc)
              <= List.length acc + List.length l.
Proof.
  induction l as [|x l IH]; intros acc; cbn; [lia|].
  specialize (IH (set_add place acc x)).
  pose proof (set_add_length_le acc x). lia.
Qed.

(** The cache of the IDLE listener after its trim holds at most 1000 ids. *)
Lemma trim_processed_uids_bound uids :
  List.length (trim_processed_uids place uids) <= cache_limit.
Proof.
  unfold trim_processed_uids.
  destruct (Nat.ltb_spec cache_limit (List.length uids)) as [Hover|Hunder];
    [|exact Hunder].
  unfold set_of_list.
  pose proof (set_of_list_length_from
                (skipn (List.length uids - evicted_count) uids) []) as H.
  rewrite length_skipn in H. cbn in H. unfold cache_limit, evicted_count in *.
  lia.
Qed.

End AnyOrder.

(** C5, at the failing input: the ids 1, 2, ..., 1001 arrive in that
    order and the cache is empty at first.  The 1001st add sets off the
    eviction, which removes the first 500 names of [list(_processed_emails)],
    the order in which the set iterates.  When the set iterates oldest
    first these are the oldest; when it iterates newest first they are the
    newest, the id just added among them, so that a second delivery of
    message 1001 is handled again.  In both cases 501 ids remain. *)
Theorem eviction_follows_iteration_order :
  let batch := map mail_of (seq 1 1001) in
  let newest_first := fst (on_new_email place_first batch []) in
  let oldest_first := fst (on_new_email place_last batch []) in
  (List.length oldest_first = 501 /\
   oldest_first = ids_from 501 501) /\
  (List.length newest_first = 501 /\
   newest_first = rev (ids_from 1 501) /\
   set_contains newest_first (id_of 1001) = false /\
   snd (on_new_email place_first [mail_of 1001] newest_first) = [mail_of 1001]).
Proof.
  cbv zeta.
  split; [split | split; [|split; [|split]]]; vm_compute; reflexivity.
Qed.

End DedupProofs.

(* ===================================================================== *)
(** * More about the reply workflow: tool rounds, limits, threads         *)
(* ===================================================================== *)

Module AgentMore.
Import Agent AgentTerms AgentProofs.
Local Open Scope list_scope.

Lemma last_item_Some {A : Type} (l : list A) (x : A) :
  last_item l = Some x -> exists before, l = before ++ [x].
Proof.
  unfold last_item. intros H. destruct (rev l) as [|y r] eqn:Hrev; [discriminate|].
  inversion H; subst y. exists (rev r).
  rewrite <- (rev_involutive l), Hrev. reflexivity.
Qed.

Lemma last_item_app_cons {A : Type} (l r : list A) (x : A) :
  last_item (l ++ x :: r) = last_item (x :: r).
Proof.
  unfold last_item. rewrite rev_app_distr.
  destruct (rev (x :: r)) as [|y t] eqn:Hr; [|reflexivity].
  apply (f_equal (@List.length A)) in Hr. rewrite length_rev in Hr. discriminate.
Qed.

(** ** The tool node *)

Lemma run_tool_calls_app world a : forall b tr,
  run_tool_calls world (a ++ b) tr =
  let (o1, tr1) := run_tool_calls world a tr in
  let (o2, tr2) := run_tool_calls world b tr1 in
  (o1 ++ o2, tr2).
Proof.
  induction a as [|c a IH]; intros b tr.
  - cbn. destruct (run_tool_calls world b tr); reflexivity.
  - cbn [app run_tool_calls]. unfold bind, do_tool, ret. rewrite IH.
    destruct (run_tool_calls world a (tr ++ [EvToolCall c])) as [o1 tr1].
    cbn. destruct (run_tool_calls world b tr1) as [o2 tr2]. reflexivity.
Qed.

Lemma run_tool_calls_events world calls : forall tr,
  snd (run_tool_calls world calls tr) = tr ++ map EvToolCall calls.
Proof.
  induction calls as [|c rest IH]; intros tr.
  - cbn. now rewrite app_nil_r.
  - cbn [run_tool_calls]. unfold bind, do_tool, ret.
    specialize (IH (tr ++ [EvToolCall c])).
    destruct (run_tool_calls world rest (tr ++ [EvToolCall c])) as [outs tr2].
    cbn [snd] in *. rewrite IH, <- app_assoc. reflexivity.
Qed.

Lemma run_tool_calls_turns world calls : forall tr,
  map name (fst (run_tool_calls world calls tr)) =
    map (fun c => Some (tc_name c)) calls /\
  Forall (fun m => kind m = Tool) (fst (run_tool_calls world calls tr)).
Proof.
  induction calls as [|c rest IH]; intros tr.
  - split; [reflexivity | constructor].
  - cbn [run_tool_calls]. unfold bind, do_tool, ret.
    specialize (IH (tr ++ [EvToolCall c])).
    destruct (run_tool_calls world rest (tr ++ [EvToolCall c])) as [outs tr2].
    cbn [fst map] in *. destruct IH as [Hn Hk]. split.
    + rewrite Hn. reflexivity.
    + constructor; [reflexivity | exact Hk].
Qed.

(** The last tool message answers the last call. *)
Lemma run_tool_calls_last world calls call tr :
  last_item calls = Some call ->
  exists before out,
    fst (run_tool_calls world calls tr) = before ++ [ToolMessage out (tc_name call)].
Proof.
  intros Hlast. destruct (last_item_Some _ Hlast) as [a ->].
  rewrite run_tool_calls_app.
  destruct (run_tool_calls world a tr) as [o1 tr1].
  cbn [run_tool_calls]. unfold bind, do_tool, ret. cbn [fst].
  exists o1, (run_tool world tr1 call). reflexivity.
Qed.

(** ** One round through the tools *)

(** The state after [process_email] stored the answer [c], [calls] of the
    model and the tool node stored the results [outs]. *)
Lemma tool_round cfg world k st tr em c call calls :
  email_message st = Some em ->
  email_replied st = false ->
  last_is_send_email_result st = false ->
  authorized cfg em ->
  llm_invoke world tr (llm_input cfg st em) = LLMReturn c (call :: calls) ->
  let tr1 := tr ++ [EvInvokeLLM (llm_input cfg st em)] in
  let outs := fst (run_tool_calls world (call :: calls) tr1) in
  let st2 :=
    {| messages := messages st ++ AIMessage c (call :: calls) :: outs;
       status := "agent_replied"; email_message := Some em;
       error := error st; email_replied := false;
       subject := Some ("回复:" ++ Mail.subject em)%string |} in
  invoke_from cfg world (S (S k)) process_email_node st tr =
  let (o, tr3) := invoke_from cfg world k process_email_node st2
                    (tr1 ++ map EvToolCall (call :: calls)) in
  (visit process_email_node (visit tools_node o), tr3).
Proof.
  intros Hem Hr Hl Hau Hllm. cbv zeta.
  pose proof (@process_email_master cfg world st tr em Hem Hr Hl Hau) as Hp.
  rewrite Hllm in Hp.
  rewrite invoke_from_step. cbn [run_node]. rewrite Hp. cbv zeta.
  assert (Hroute : next_node process_email_node
            (apply_update st
               (update (Some (MsgList [AIMessage c (call :: calls)]))
                  (Some "agent_replied"%string) None (Some false)
                  (Some ("回复:" ++ Mail.subject em)%string))) = Some tools_node).
  { cbn [next_node]. unfold route_after_process.
    cbn [apply_update update u_messages u_status u_email_replied overwrite
         add_messages messages status email_replied].
    rewrite last_item_app. reflexivity. }
  rewrite Hroute. rewrite invoke_from_step. cbn [run_node]. unfold tools.
  cbn [apply_update update u_messages add_messages messages].
  rewrite last_item_app. cbn [tool_calls AIMessage]. unfold bind, ret.
  pose proof (run_tool_calls_events world (call :: calls)
                (tr ++ [EvInvokeLLM (llm_input cfg st em)])) as Hev.
  destruct (run_tool_calls world (call :: calls)
              (tr ++ [EvInvokeLLM (llm_input cfg st em)])) as [outs tr2].
  cbn [snd fst] in *. subst tr2. cbv zeta. cbn [next_node].
  unfold apply_update at 1 2.
  cbn [update u_messages u_status u_email_message u_error u_email_replied
       u_subject overwrite add_messages messages status email_message error
       email_replied subject].
  rewrite Hem, <- app_assoc. cbn [app].
  destruct (invoke_from cfg world k process_email_node _ _) as [o tr3].
  reflexivity.
Qed.

Lemma last_item_nonempty {A : Type} (a : A) (l : list A) :
  exists x, last_item (a :: l) = Some x.
Proof.
  unfold last_item. destruct (rev (a :: l)) as [|y t] eqn:Hr.
  - apply (f_equal (@List.length A)) in Hr. rewrite length_rev in Hr. discriminate.
  - exists y. reflexivity.
Qed.

Lemma llm_input_history cfg st em :
  messages st <> [] -> llm_input cfg st em = messages st.
Proof.
  intros Hne. unfold llm_input. destruct (messages st); [congruence | reflexivity].
Qed.

(** When the master writes and nothing stops [process_email] before the
    model, the first thing a run does is to invoke the model. *)
Lemma process_master_trace cfg world k st tr em :
  email_message st = Some em ->
  email_replied st = false ->
  last_is_send_email_result st = false ->
  authorized cfg em ->
  exists rest,
    snd (invoke_from cfg world (S k) process_email_node st tr) =
    tr ++ EvInvokeLLM (llm_input cfg st em) :: rest.
Proof.
  intros Hem Hr Hl Hau. rewrite invoke_from_step. cbn [run_node].
  rewrite (@process_email_master cfg world st tr em Hem Hr Hl Hau).
  cbv zeta. cbn [next_node].
  match goal with
  | |- context [invoke_from cfg world k ?n ?s ?t] =>
      destruct (invoke_from_trace cfg world k n s t) as [new [Hnew _]];
      destruct (invoke_from cfg world k n s t) as [o tr2]
  end.
  cbn [snd] in *.
  exists new. rewrite Hnew, <- app_assoc. reflexivity.
Qed.

(** The state after a tool round does not end with a result of the send
    tool, unless the send tool was called last. *)
Lemma tool_round_last world st c call calls tr1 em err subj :
  last_is_send_email_result
    {| messages := messages st ++ AIMessage c (call :: calls)
                     :: fst (run_tool_calls world (call :: calls) tr1);
       status := "agent_replied"; email_message := Some em;
       error := err; email_replied := false; subject := subj |}
  = last_call_is_send (call :: calls).
Proof.
  unfold last_is_send_email_result, last_call_is_send. cbn [messages].
  destruct (last_item_nonempty call calls) as [x Hx]. rewrite Hx.
  destruct (@run_tool_calls_last world (call :: calls) x tr1 Hx) as [before [out Hout]].
  rewrite Hout.
  change (messages st ++ AIMessage c (call :: calls) :: before ++ [ToolMessage out (tc_name x)])
    with (messages st ++ (AIMessage c (call :: calls) :: before) ++ [ToolMessage out (tc_name x)]).
  rewrite app_assoc, last_item_app. reflexivity.
Qed.

(** ** What the model is shown after a tool round *)

(** On a new thread the model is first invoked on the system prompt and
    the formatted mail, but neither is stored: after a round through the
    tools the model is invoked on the stored turns only, its own answer
    and the tool results. *)
Theorem model_sees_only_history_after_tools cfg world k st tr em c call calls :
  email_message st = Some em ->
  messages st = [] ->
  email_replied st = false ->
  authorized cfg em ->
  llm_invoke world tr (llm_input cfg st em) = LLMReturn c (call :: calls) ->
  last_call_is_send (call :: calls) = false ->
  let seed := [SystemMessage (system_prompt (master_email cfg));
               HumanMessage (email_content em)] in
  let history := AIMessage c (call :: calls)
                 :: fst (run_tool_calls world (call :: calls)
                           (tr ++ [EvInvokeLLM seed])) in
  Forall written_by_model_or_tool history /\
  exists rest,
    snd (invoke_from cfg world (S (S (S k))) process_email_node st tr) =
    tr ++ EvInvokeLLM seed :: map EvToolCall (call :: calls)
       ++ EvInvokeLLM history :: rest.
Proof.
  intros Hem Hmsgs Hr Hau Hllm Hlast. cbv zeta.
  assert (Hl : last_is_send_email_result st = false).
  { unfold last_is_send_email_result. rewrite Hmsgs. reflexivity. }
  assert (Hseed : llm_input cfg st em =
                  [SystemMessage (system_prompt (master_email cfg));
                   HumanMessage (email_content em)]).
  { unfold llm_input. rewrite Hmsgs. reflexivity. }
  split.
  - constructor; [left; reflexivity|].
    destruct (run_tool_calls_turns world (call :: calls)
                (tr ++ [EvInvokeLLM [SystemMessage (system_prompt (master_email cfg));
                                     HumanMessage (email_content em)]]))
      as [_ Hk].
    eapply Forall_impl; [|exact Hk]. intros m Hm. right. exact Hm.
  - rewrite (@tool_round cfg world (S k) st tr em c call calls Hem Hr Hl Hau Hllm).
    pose proof (@tool_round_last world st c call calls
                  (tr ++ [EvInvokeLLM (llm_input cfg st em)]) em (error st)
                  (Some ("回复:" ++ Mail.subject em)%string)) as Hl2.
    rewrite Hlast in Hl2.
    match goal with
    | |- context [invoke_from cfg world (S k) process_email_node ?s ?t] =>
        destruct (@process_master_trace cfg world k s t em eq_refl eq_refl Hl2 Hau)
          as [rest Hrest];
        assert (Hh : llm_input cfg s em = messages s)
          by (apply llm_input_history; cbn [messages]; rewrite Hmsgs; discriminate);
        rewrite Hh in Hrest;
        destruct (invoke_from cfg world (S k) process_email_node s t) as [o tr3]
    end.
    cbn [snd messages] in *. exists rest. rewrite Hrest, Hseed, Hmsgs.
    cbn [app]. rewrite <- !app_assoc. reflexivity.
Qed.

Lemma model_sees_only_history_after_tools_witness :
  let em := mail_from "master@example.com" "Find Bob" "mail Bob" in
  let st := fresh_task em in
  let c := "" in
  let call := {| tc_name := "search_contact"; tc_args := "{}" |} in
  (email_message st = Some em /\ messages st = [] /\ email_replied st = false /\
   authorized demo_cfg em /\
   llm_invoke searching_world [] (llm_input demo_cfg st em) = LLMReturn c [call] /\
   last_call_is_send [call] = false) /\
  let seed := [SystemMessage (system_prompt (master_email demo_cfg));
               HumanMessage (email_content em)] in
  let history := AIMessage c [call]
                 :: fst (run_tool_calls searching_world [call]
                           ([] ++ [EvInvokeLLM seed])) in
  Forall written_by_model_or_tool history /\
  exists rest,
    snd (invoke_from demo_cfg searching_world 3 process_email_node st []) =
    [] ++ EvInvokeLLM seed :: map EvToolCall [call]
       ++ EvInvokeLLM history :: rest.
Proof.
  cbv zeta.
  assert (Hau : authorized demo_cfg (mail_from "master@example.com" "Find Bob" "mail Bob"))
    by (split; [reflexivity | discriminate]).
  split.
  - repeat split; try reflexivity. discriminate.
  - exact (@model_sees_only_history_after_tools demo_cfg searching_world 0
             (fresh_task (mail_from "master@example.com" "Find Bob" "mail Bob")) []
             (mail_from "master@example.com" "Find Bob" "mail Bob") ""
             {| tc_name := "search_contact"; tc_args := "{}" |} []
             eq_refl eq_refl eq_refl Hau eq_refl eq_refl).
Defined.

(** ** A reply sent by the tool *)

Lemma replies_tool_calls calls : replies (map EvToolCall calls) = 0.
Proof. unfold replies. induction calls as [|c rest IH]; [reflexivity | exact IH]. Qed.

(** When the last tool the model asked for is [send_email_simple], the
    next pass of [process_email] takes the tool result for the reply: the
    run goes on to [mark_as_replied] without invoking the model again and
    without [send_email], so the graph itself sends nothing. *)
Theorem send_tool_ends_the_run cfg world k st tr em c call calls :
  email_message st = Some em ->
  email_replied st = false ->
  last_is_send_email_result st = false ->
  authorized cfg em ->
  llm_invoke world tr (llm_input cfg st em) = LLMReturn c (call :: calls) ->
  last_call_is_send (call :: calls) = true ->
  exists st',
    invoke_from cfg world (S (S (S (S k)))) process_email_node st tr =
    ({| path := [process_email_node; tools_node; process_email_node;
                 mark_as_replied_node];
        final := Some st' |},
     tr ++ EvInvokeLLM (llm_input cfg st em) :: map EvToolCall (call :: calls)) /\
    email_replied st' = true /\
    replies (EvInvokeLLM (llm_input cfg st em) :: map EvToolCall (call :: calls)) = 0.
Proof.
  intros Hem Hr Hl Hau Hllm Hlast.
  rewrite (@tool_round cfg world (S (S k)) st tr em c call calls Hem Hr Hl Hau Hllm).
  pose proof (@tool_round_last world st c call calls
                (tr ++ [EvInvokeLLM (llm_input cfg st em)]) em (error st)
                (Some ("回复:" ++ Mail.subject em)%string)) as Hl2.
  rewrite Hlast in Hl2.
  match goal with
  | |- context [invoke_from cfg world (S (S k)) process_email_node ?s ?t] =>
      rewrite (@invoke_from_skip cfg world k s t
                 (update (Some (MsgList [AIMessage "邮件已发送，任务完成" []]))
                    (Some "success"%string) None (Some true) None))
  end.
  - eexists. split; [|split].
    + rewrite <- app_assoc. reflexivity.
    + reflexivity.
    + exact (replies_tool_calls (call :: calls)).
  - unfold process_email. cbn [email_message email_replied]. rewrite Hl2.
    reflexivity.
  - reflexivity.
Qed.

Lemma send_tool_ends_the_run_witness :
  let em := mail_from "master@example.com" "Tell Bob" "mail Bob" in
  let st := fresh_task em in
  let call := {| tc_name := "send_email_simple"; tc_args := "{}" |} in
  (email_message st = Some em /\ email_replied st = false /\
   last_is_send_email_result st = false /\ authorized demo_cfg em /\
   llm_invoke sending_world [] (llm_input demo_cfg st em) = LLMReturn "" [call] /\
   last_call_is_send [call] = true) /\
  exists st',
    invoke_from demo_cfg sending_world 4 process_email_node st [] =
    ({| path := [process_email_node; tools_node; process_email_node;
                 mark_as_replied_node];
        final := Some st' |},
     [] ++ EvInvokeLLM (llm_input demo_cfg st em) :: map EvToolCall [call]) /\
    email_replied st' = true /\
    replies (EvInvokeLLM (llm_input demo_cfg st em) :: map EvToolCall [call]) = 0.
Proof.
  cbv zeta.
  assert (Hau : authorized demo_cfg (mail_from "master@example.com" "Tell Bob" "mail Bob"))
    by (split; [reflexivity | discriminate]).
  split.
  - repeat split; try reflexivity. discriminate.
  - exact (@send_tool_ends_the_run demo_cfg sending_world 0
             (fresh_task (mail_from "master@example.com" "Tell Bob" "mail Bob")) []
             (mail_from "master@example.com" "Tell Bob" "mail Bob") ""
             {| tc_name := "send_email_simple"; tc_args := "{}" |} []
             eq_refl eq_refl eq_refl Hau eq_refl eq_refl).
Defined.

(** ** The only bound of the tool loop *)

Lemma replies_app a b : replies (a ++ b) = replies a + replies b.
Proof. unfold replies. rewrite filter_app, length_app. reflexivity. Qed.

Lemma asks_for_tools_inv r :
  asks_for_tools r = true ->
  exists c call calls,
    r = LLMReturn c (call :: calls) /\ last_call_is_send (call :: calls) = false.
Proof.
  destruct r as [c [|call calls]|e]; try discriminate.
  cbn [asks_for_tools]. intros H. apply negb_true_iff in H.
  exists c, call, calls. split; [reflexivity | exact H].
Qed.

Section ToolLoop.

Variable cfg : Config.
Variable world : World.
Hypothesis always_tools :
  forall tr conversation, asks_for_tools (llm_invoke world tr conversation) = true.

Lemma tool_loop_two_limits k :
  (forall st tr em,
      email_message st = Some em -> email_replied st = false ->
      last_is_send_email_result st = false -> authorized cfg em ->
      cut_short (invoke_from cfg world k process_email_node st tr) tr) /\
  (forall st tr em,
      email_message st = Some em -> email_replied st = false ->
      last_is_send_email_result st = false -> authorized cfg em ->
      cut_short (invoke_from cfg world (S k) process_email_node st tr) tr).
Proof.
  induction k as [|k [IH0 IH1]].
  - split; intros st tr em Hem Hr Hl Hau.
    + split; [reflexivity|]. exists []. split; [cbn; now rewrite app_nil_r | reflexivity].
    + destruct (asks_for_tools_inv _ (always_tools tr (llm_input cfg st em)))
        as [c [call [calls [Hllm Hlast]]]].
      pose proof (@process_email_master cfg world st tr em Hem Hr Hl Hau) as Hp.
      rewrite Hllm in Hp.
      rewrite invoke_from_step. cbn [run_node]. rewrite Hp. cbv zeta.
      cbn [next_node invoke_from]. unfold ret. split; [reflexivity|].
      exists [EvInvokeLLM (llm_input cfg st em)]. split; reflexivity.
  - split; [exact IH1|].
    intros st tr em Hem Hr Hl Hau.
    destruct (asks_for_tools_inv _ (always_tools tr (llm_input cfg st em)))
      as [c [call [calls [Hllm Hlast]]]].
    rewrite (@tool_round cfg world k st tr em c call calls Hem Hr Hl Hau Hllm).
    pose proof (@tool_round_last world st c call calls
                  (tr ++ [EvInvokeLLM (llm_input cfg st em)]) em (error st)
                  (Some ("回复:" ++ Mail.subject em)%string)) as Hl2.
    rewrite Hlast in Hl2.
    match goal with
    | |- context [invoke_from cfg world k process_email_node ?s ?t] =>
        destruct (IH0 s t em eq_refl eq_refl Hl2 Hau) as [Hfin [new [Hnew Hnone]]];
        destruct (invoke_from cfg world k process_email_node s t) as [o tr3]
    end.
    cbn [fst snd] in *. split; [exact Hfin|].
    exists (EvInvokeLLM (llm_input cfg st em) :: map EvToolCall (call :: calls) ++ new).
    split.
    + rewrite Hnew, <- !app_assoc. reflexivity.
    + change (EvInvokeLLM (llm_input cfg st em) :: map EvToolCall (call :: calls) ++ new)
        with ([EvInvokeLLM (llm_input cfg st em)] ++ map EvToolCall (call :: calls) ++ new).
      rewrite !replies_app, replies_tool_calls, Hnone. reflexivity.
Qed.

End ToolLoop.

(** The tool loop has no bound of its own.  When every answer of the
    model asks for tools, the last of them not the send tool, the graph
    runs into the recursion limit: [run] reports failure, and the
    [send_email] node is never reached, so the graph makes no call of
    [send_simple_email], neither for an answer nor for the apology.
    What the tools of the loop do, mail included, is theirs and is not
    bounded by this. *)
Theorem tool_loop_runs_into_the_limit cfg world checkpoint em tr :
  (forall tr' conversation,
      asks_for_tools (llm_invoke world tr' conversation) = true) ->
  last_is_send_email_result checkpoint = false ->
  authorized cfg em ->
  success (fst (run cfg world checkpoint em tr)) = false /\
  exists new, snd (run cfg world checkpoint em tr) = tr ++ new /\ replies new = 0.
Proof.
  intros Hall Hl Hau. unfold run, bind, invoke.
  destruct (proj1 (@tool_loop_two_limits cfg world Hall recursion_limit)
              (apply_update checkpoint (initial_state em)) tr em
              eq_refl eq_refl Hl Hau) as [Hfin [new [Hnew Hnone]]].
  destruct (invoke_from cfg world recursion_limit process_email_node
              (apply_update checkpoint (initial_state em)) tr) as [o tr1].
  cbn [fst snd] in *. rewrite Hfin. unfold ret. cbn [fst snd]. split; [reflexivity|].
  exists new. split; assumption.
Qed.

Lemma tool_loop_runs_into_the_limit_witness :
  let em := mail_from "master@example.com" "Find Bob" "mail Bob" in
  ((forall tr' conversation,
       asks_for_tools (llm_invoke searching_world tr' conversation) = true) /\
   last_is_send_email_result empty_task = false /\
   authorized demo_cfg em) /\
  success (fst (run demo_cfg searching_world empty_task em [])) = false /\
  exists new, snd (run demo_cfg searching_world empty_task em []) = [] ++ new /\
              replies new = 0.
Proof.
  cbv zeta.
  assert (Hau : authorized demo_cfg (mail_from "master@example.com" "Find Bob" "mail Bob"))
    by (split; [reflexivity | discriminate]).
  split.
  - split; [intros tr' conversation; reflexivity | split; [reflexivity | exact Hau]].
  - exact (@tool_loop_runs_into_the_limit demo_cfg searching_world empty_task
             (mail_from "master@example.com" "Find Bob" "mail Bob") []
             (fun _ _ => eq_refl) eq_refl Hau).
Defined.

(** ** What [run] reports *)

(** A successful [run] reports the status ["email_proccessed"], whatever
    happened on the way: an ignored stranger, a sent reply and a failed
    send give the same result. *)
Theorem run_reports_one_status cfg world checkpoint em tr :
  success (fst (run cfg world checkpoint em tr)) = true ->
  result (fst (run cfg world checkpoint em tr)) = "email_proccessed"%string.
Proof.
  unfold run, bind, invoke.
  destruct (invoke_from cfg world recursion_limit process_email_node
              (apply_update checkpoint (initial_state em)) tr) as [o tr1] eqn:Hrun.
  destruct (final o) as [st'|] eqn:Hfin; unfold ret; cbn [fst success result].
  - intros _.
    exact (proj1 (proj2 (invoke_from_ends_marked _ _ _ _ _ _ Hrun Hfin))).
  - discriminate.
Qed.

Lemma run_reports_one_status_witness :
  let em := mail_from "stranger@example.com" "Hi" "hello" in
  let world := quiet_world (LLMReturn "hi" []) (SendFailure "SMTP down") in
  success (fst (run demo_cfg world empty_task em [])) = true /\
  result (fst (run demo_cfg world empty_task em [])) = "email_proccessed"%string.
Proof.
  cbv zeta. split.
  - vm_compute. reflexivity.
  - apply run_reports_one_status. vm_compute. reflexivity.
Defined.

(** ** At most one reply *)

Lemma invoke_from_mark_silent cfg world k st tr :
  snd (invoke_from cfg world k mark_as_replied_node st tr) = tr.
Proof. destruct k; [reflexivity | now rewrite invoke_from_mark]. Qed.

(** From whatever node and state the graph starts, it sends at most one
    reply before it ends or is stopped: [send_email] is followed by
    [mark_as_replied] and the end. *)
Theorem at_most_one_reply cfg world limit :
  forall n st tr, exists new,
    snd (invoke_from cfg world limit n st tr) = tr ++ new /\ replies new <= 1.
Proof.
  induction limit as [|k IH]; intros n st tr.
  - exists []. split; [cbn; now rewrite app_nil_r | cbn; lia].
  - rewrite invoke_from_step. destruct n; cbn [run_node next_node].
    + (* process_email *)
      assert (Hp : exists new1,
                 snd (process_email cfg world st tr) = tr ++ new1 /\ replies new1 = 0).
      { unfold process_email.
        destruct (email_message st) as [em|];
          [|exists []; split; [cbn; now rewrite app_nil_r | reflexivity]].
        destruct (email_replied st);
          [exists []; split; [cbn; now rewrite app_nil_r | reflexivity]|].
        destruct (last_is_send_email_result st);
          [exists []; split; [cbn; now rewrite app_nil_r | reflexivity]|].
        destruct (Mail.from_email em =? assistant_email cfg)%string;
          [exists []; split; [cbn; now rewrite app_nil_r | reflexivity]|].
        destruct (Mail.from_email em =? master_email cfg)%string;
          [|exists []; split; [cbn; now rewrite app_nil_r | reflexivity]].
        exists [EvInvokeLLM (llm_input cfg st em)]. unfold bind, invoke_llm.
        split; [|reflexivity].
        destruct (llm_invoke world tr (llm_input cfg st em)); reflexivity. }
      destruct Hp as [new1 [Hnew1 Hnone]].
      destruct (process_email cfg world st tr) as [u tr1]. cbn [snd] in Hnew1.
      cbv zeta.
      destruct (IH (route_after_process (apply_update st u)) (apply_update st u) tr1)
        as [new2 [Hnew2 Hle]].
      destruct (invoke_from cfg world k _ _ tr1) as [o tr2]. cbn [snd] in *.
      exists (new1 ++ new2). split.
      * rewrite Hnew2, Hnew1, app_assoc. reflexivity.
      * rewrite replies_app, Hnone. exact Hle.
    + (* tools *)
      assert (Hp : exists new1,
                 snd (tools world st tr) = tr ++ new1 /\ replies new1 = 0).
      { unfold tools. destruct (last_item (messages st)) as [m|];
          [|exists []; split; [cbn; now rewrite app_nil_r | reflexivity]].
        unfold bind, ret.
        pose proof (run_tool_calls_events world (tool_calls m) tr) as Hev.
        destruct (run_tool_calls world (tool_calls m) tr) as [outs tr1].
        cbn [snd] in *. exists (map EvToolCall (tool_calls m)).
        split; [exact Hev | apply replies_tool_calls]. }
      destruct Hp as [new1 [Hnew1 Hnone]].
      destruct (tools world st tr) as [u tr1]. cbn [snd] in Hnew1. cbv zeta.
      destruct (IH process_email_node (apply_update st u) tr1) as [new2 [Hnew2 Hle]].
      destruct (invoke_from cfg world k _ _ tr1) as [o tr2]. cbn [snd] in *.
      exists (new1 ++ new2). split.
      * rewrite Hnew2, Hnew1, app_assoc. reflexivity.
      * rewrite replies_app, Hnone. exact Hle.
    + (* send_email *)
      assert (Hs : snd (send_email cfg world st tr) =
                   tr ++ [EvSendEmail (master_email cfg) (subject st)
                            (reply_body (messages st))]).
      { unfold send_email, bind, do_send.
        destruct (send_simple_email world tr _ _ _); reflexivity. }
      destruct (send_email cfg world st tr) as [u tr1]. cbn [snd] in Hs. cbv zeta.
      pose proof (invoke_from_mark_silent cfg world k (apply_update st u) tr1) as Hm.
      destruct (invoke_from cfg world k mark_as_replied_node _ tr1) as [o tr2].
      cbn [snd] in *. subst tr2 tr1.
      eexists. split; [reflexivity | cbn; lia].
    + (* mark_as_replied *)
      exists []. split; [cbn; now rewrite app_nil_r | cbn; lia].
Qed.

(** ** A task without a message *)

(** The first test of [process_email] returns an empty message and
    nothing else.  The router then finds neither the flag nor the status
    ["ignored"], and unless the last turn asks for tools the graph goes
    to [send_email]: a state without a message is answered, with whatever
    subject and assistant content the thread holds. *)
Theorem task_without_message_is_answered cfg world st tr :
  email_message st = None ->
  email_replied st = false ->
  status st <> "ignored"%string ->
  match last_item (messages st) with
  | Some m => has_tool_calls m = false
  | None => True
  end ->
  exists st',
    invoke cfg world st tr =
    ({| path := [process_email_node; send_email_node; mark_as_replied_node];
        final := Some st' |},
     tr ++ [EvSendEmail (master_email cfg) (subject st)
              (reply_body (messages st))]) /\
    email_replied st' = true.
Proof.
  intros Hem Hr Hst Hlast. unfold invoke. rewrite recursion_limit_S.
  assert (Hp : process_email cfg world st tr =
               ({| u_messages := None; u_status := None;
                   u_email_message := Some None; u_error := None;
                   u_email_replied := None; u_subject := None |}, tr)).
  { unfold process_email. rewrite Hem. reflexivity. }
  rewrite (@invoke_from_reply cfg world 997 st tr _ _ Hp).
  - unfold send_email, bind, do_send.
    cbn [apply_update u_messages u_subject messages subject].
    destruct (send_simple_email world tr _ _ _);
      (eexists; split; reflexivity).
  - unfold route_after_process.
    cbn [apply_update u_messages u_status u_email_replied overwrite messages
         status email_replied].
    rewrite Hr. apply String.eqb_neq in Hst. rewrite Hst.
    destruct (last_item (messages st)) as [m|]; [rewrite Hlast|]; reflexivity.
Qed.

Lemma task_without_message_is_answered_witness :
  let world := quiet_world (LLMReturn "hi" []) SendSuccess in
  (email_message empty_task = None /\ email_replied empty_task = false /\
   status empty_task <> "ignored"%string /\
   match last_item (messages empty_task) with
   | Some m => has_tool_calls m = false
   | None => True
   end) /\
  exists st',
    invoke demo_cfg world empty_task [] =
    ({| path := [process_email_node; send_email_node; mark_as_replied_node];
        final := Some st' |},
     [] ++ [EvSendEmail (master_email demo_cfg) (subject empty_task)
              (reply_body (messages empty_task))]) /\
    email_replied st' = true.
Proof.
  cbv zeta. split.
  - split; [reflexivity | split; [reflexivity | split; [discriminate | exact I]]].
  - apply (@task_without_message_is_answered demo_cfg
             (quiet_world (LLMReturn "hi" []) SendSuccess) empty_task []).
    + reflexivity.
    + reflexivity.
    + discriminate.
    + exact I.
Defined.

(** ** The second mail of a thread *)

(** [run] writes the new mail over the checkpoint of thread ["1"] and
    keeps the turns of the thread.  When the thread already has turns,
    the model is invoked on those turns as they are: the new mail is not
    formatted into the conversation. *)
Theorem next_mail_on_thread_is_not_shown cfg world checkpoint em tr :
  messages checkpoint <> [] ->
  last_is_send_email_result checkpoint = false ->
  authorized cfg em ->
  exists rest,
    snd (run cfg world checkpoint em tr) =
    tr ++ EvInvokeLLM (messages checkpoint) :: rest.
Proof.
  intros Hne Hl Hau. unfold run, bind, invoke. rewrite recursion_limit_S.
  destruct (@process_master_trace cfg world (S (S 997))
              (apply_update checkpoint (initial_state em)) tr em
              eq_refl eq_refl Hl Hau) as [rest Hrest].
  rewrite llm_input_history in Hrest by exact Hne.
  destruct (invoke_from cfg world (S (S (S 997))) process_email_node
              (apply_update checkpoint (initial_state em)) tr) as [o tr1].
  cbn [snd] in Hrest. exists rest.
  destruct (final o); unfold ret; cbn [snd]; exact Hrest.
Qed.

Lemma next_mail_on_thread_is_not_shown_witness :
  let first := mail_from "master@example.com" "Translate this" "hello" in
  let second := mail_from "master@example.com" "And this" "goodbye" in
  let world := quiet_world (LLMReturn "你好" []) SendSuccess in
  let checkpoint :=
    {| messages := [AIMessage "你好" []; HumanMessage "Email has been send"];
       status := "email_proccessed"; email_message := Some first;
       error := None; email_replied := true;
       subject := Some "回复:Translate this"%string |} in
  (messages checkpoint <> [] /\
   last_is_send_email_result checkpoint = false /\
   authorized demo_cfg second) /\
  exists rest,
    snd (run demo_cfg world checkpoint second []) =
    [] ++ EvInvokeLLM (messages checkpoint) :: rest.
Proof.
  cbv zeta.
  assert (Hau : authorized demo_cfg (mail_from "master@example.com" "And this" "goodbye"))
    by (split; [reflexivity | discriminate]).
  split.
  - split; [discriminate | split; [reflexivity | exact Hau]].
  - apply (@next_mail_on_thread_is_not_shown demo_cfg
             (quiet_world (LLMReturn "你好" []) SendSuccess) _
             (mail_from "master@example.com" "And this" "goodbye") []).
    + discriminate.
    + reflexivity.
    + exact Hau.
Defined.

(** ** The body of the reply *)

(** [send_email] scans the conversation from its end and stops at the
    first assistant turn.  The body is the content of that turn, or the
    placeholder when the content is empty, even when an older assistant
    turn has content. *)
Theorem reply_body_is_last_assistant_turn before c calls after :
  forallb (fun m => negb (isinstance_AIMessage m)) after = true ->
  reply_body (before ++ AIMessage c calls :: after) =
  if (c =? "")%string then default_content else c.
Proof.
  intros Hafter. unfold reply_body.
  assert (Hlast : last_ai_content (before ++ AIMessage c calls :: after) = c).
  { unfold last_ai_content. rewrite rev_app_distr. cbn [rev].
    rewrite <- app_assoc.
    assert (Hfind : forall l tail,
               forallb (fun m => negb (isinstance_AIMessage m)) l = true ->
               find isinstance_AIMessage (rev l ++ tail) =
               find isinstance_AIMessage tail).
    { induction l as [|m l IHl]; intros tail Hl; [reflexivity|].
      cbn [forallb] in Hl. apply andb_true_iff in Hl. destruct Hl as [Hm Hl].
      cbn [rev]. rewrite <- app_assoc, (IHl _ Hl). cbn [app find].
      apply negb_true_iff in Hm. rewrite Hm. reflexivity. }
    rewrite (Hfind after _ Hafter). reflexivity. }
  rewrite Hlast. reflexivity.
Qed.

Lemma reply_body_is_last_assistant_turn_witness :
  let call := {| tc_name := "search_contact"; tc_args := "{}" |} in
  forallb (fun m => negb (isinstance_AIMessage m))
    [ToolMessage "no contact" "search_contact"; HumanMessage "Sorry"] = true /\
  reply_body ([AIMessage "Dear master, ..." []] ++ AIMessage "" [call]
                :: [ToolMessage "no contact" "search_contact"; HumanMessage "Sorry"]) =
  if ("" =? "")%string then default_content else "".
Proof.
  cbv zeta. split.
  - reflexivity.
  - apply reply_body_is_last_assistant_turn. reflexivity.
Defined.

End AgentMore.

(* ===================================================================== *)
(** * More about the listener                                             *)
(* ===================================================================== *)

Module ListenerMore.
Import Listener ListenerControl ListenerProofs.
Local Open Scope list_scope.

Lemma last_item_app_tail {A : Type} (l : list A) (x : A) :
  last_item (l ++ [x]) = Some x.
Proof. unfold last_item. rewrite rev_app_distr. reflexivity. Qed.

(** ** Stopping *)

(** [stop] on a listener that was started clears [_running] and then
    fails in the shutdown of the pool: the mode stays as it was, the
    connection is not given up, and [STOPPED] is not reached.  A second
    [stop] returns at once. *)
Theorem stop_after_start_raises srv l :
  running l = false ->
  let l1 := fst (start srv l) in
  stop l1 = (set_running l1 false, StopRaisedTypeError) /\
  mode (fst (stop l1)) = POLLING /\
  receive_service (fst (stop l1)) = receive_service l1 /\
  stop (fst (stop l1)) = (fst (stop l1), StopReturned).
Proof.
  intros Hrun. cbv zeta.
  assert (Hs : running (fst (start srv l)) = true /\
               executor (fst (start srv l)) = true /\
               mode (fst (start srv l)) = POLLING).
  { unfold start. rewrite Hrun.
    destruct (latest_emails srv) as [[|] [|e0 r0]|]; repeat split. }
  destruct Hs as [Hr [He Hm]].
  assert (Hstop : stop (fst (start srv l)) =
                  (set_running (fst (start srv l)) false, StopRaisedTypeError)).
  { unfold stop. rewrite Hr. cbn [negb set_running executor]. rewrite He. reflexivity. }
  rewrite Hstop. cbn [fst]. split; [reflexivity|]. split; [exact Hm|].
  split; reflexivity.
Qed.

Lemma stop_after_start_raises_witness :
  running init = false /\
  let l1 := fst (start idle_server init) in
  stop l1 = (set_running l1 false, StopRaisedTypeError) /\
  mode (fst (stop l1)) = POLLING /\
  receive_service (fst (stop l1)) = receive_service l1 /\
  stop (fst (stop l1)) = (fst (stop l1), StopReturned).
Proof.
  split; [reflexivity|].
  apply (@stop_after_start_raises idle_server init). reflexivity.
Defined.

(** ** The mode, over every operation *)

Lemma mode_apply_op l op :
  mode l <> IDLE -> mode (apply_op l op) <> IDLE.
Proof.
  intros Hm. destruct op as [srv| |m|answer|emails|f]; cbn [apply_op].
  - unfold start. destruct (running l); [exact Hm|].
    destruct (latest_emails srv) as [[|] [|e0 r0]|]; discriminate.
  - unfold stop. destruct (running l); cbn [negb fst]; [|exact Hm].
    destruct (executor (set_running l false)); [exact Hm | discriminate].
  - destruct m; cbn; [exact Hm | discriminate | exact Hm].
  - rewrite mode_run_polling_mode_safe. exact Hm.
  - rewrite mode_process_new_emails. exact Hm.
  - exact Hm.
Qed.

(** No sequence of starts, stops, mode switches, polls, submissions and
    completions brings a new listener into IDLE mode; a switch to IDLE
    answers [true] and changes nothing. *)
Theorem listener_never_idles ops :
  mode (run_ops ops init) <> IDLE /\
  (forall l, switch_mode IDLE l = (l, true)).
Proof.
  split; [|reflexivity].
  assert (H : forall l, mode l <> IDLE -> mode (run_ops ops l) <> IDLE).
  { unfold run_ops. induction ops as [|op rest IH]; intros l Hm; [exact Hm|].
    cbn [fold_left]. apply IH. apply mode_apply_op. exact Hm. }
  apply H. discriminate.
Qed.

(** ** The counters *)

Lemma processing_apply_op l op :
  processing_tasks (stats l) = List.length (pending_futures l) ->
  processing_tasks (stats (apply_op l op))
    = List.length (pending_futures (apply_op l op)).
Proof.
  intros H. destruct op as [srv| |m|answer|emails|f]; cbn [apply_op].
  - unfold start. destruct (running l); [exact H|].
    destruct (latest_emails srv) as [[|] [|e0 r0]|];
      destruct (receive_service l); exact H.
  - unfold stop. destruct (running l); cbn [negb fst]; [|exact H].
    destruct (executor (set_running l false)); exact H.
  - destruct m; exact H.
  - unfold _run_polling_mode_safe.
    destruct answer as [[|] emails|].
    + destruct (filter _ emails) as [|e rest]; cbn [fst].
      * destruct (receive_service l); exact H.
      * unfold _process_new_emails.
        destruct (receive_service l); cbn; destruct (executor l);
          cbn; try exact H; reflexivity.
    + destruct (receive_service l); exact H.
    + destruct (receive_service l); exact H.
  - unfold _process_new_emails. destruct emails as [|e rest]; [exact H|].
    cbn. destruct (executor l); cbn; [reflexivity | exact H].
  - reflexivity.
Qed.

(** [processing_tasks] is the number of pending futures after every
    operation. *)
Theorem processing_tasks_counts_pending ops :
  processing_tasks (stats (run_ops ops init))
    = List.length (pending_futures (run_ops ops init)).
Proof.
  assert (H : forall l,
             processing_tasks (stats l) = List.length (pending_futures l) ->
             processing_tasks (stats (run_ops ops l))
               = List.length (pending_futures (run_ops ops l))).
  { unfold run_ops. induction ops as [|op rest IH]; intros l Hl; [exact Hl|].
    cbn [fold_left]. apply IH. apply processing_apply_op. exact Hl. }
  apply H. reflexivity.
Qed.

Lemma remove_first_length f fs :
  existsb (same_future f) fs = true ->
  S (List.length (remove_first f fs)) = List.length fs.
Proof.
  induction fs as [|g rest IH]; [discriminate|].
  cbn [existsb remove_first]. destruct (same_future f g); [reflexivity|].
  cbn [orb]. intros H. cbn [List.length]. rewrite (IH H). reflexivity.
Qed.

Lemma accounting_process emails l :
  completed_tasks (stats l) + List.length (pending_futures l) = futures_created l ->
  completed_tasks (stats (_process_new_emails emails l))
    + List.length (pending_futures (_process_new_emails emails l))
  = futures_created (_process_new_emails emails l).
Proof.
  intros H. unfold _process_new_emails. destruct emails as [|e rest]; [exact H|].
  cbn. destruct (executor l); cbn; [|exact H].
  rewrite length_app. cbn. lia.
Qed.

Lemma accounting_apply_op l op :
  op_in_time l op = true ->
  completed_tasks (stats l) + List.length (pending_futures l) = futures_created l ->
  completed_tasks (stats (apply_op l op))
    + List.length (pending_futures (apply_op l op))
  = futures_created (apply_op l op).
Proof.
  intros Ht H. destruct op as [srv| |m|answer|emails|f]; cbn [apply_op].
  - unfold start. destruct (running l); [exact H|].
    destruct (latest_emails srv) as [[|] [|e0 r0]|];
      destruct (receive_service l); exact H.
  - unfold stop. destruct (running l); cbn [negb fst]; [|exact H].
    destruct (executor (set_running l false)); exact H.
  - destruct m; exact H.
  - unfold _run_polling_mode_safe.
    destruct answer as [[|] emails|].
    + destruct (filter _ emails) as [|e rest]; cbn [fst].
      * destruct (receive_service l); exact H.
      * apply accounting_process. destruct (receive_service l); exact H.
    + destruct (receive_service l); exact H.
    + destruct (receive_service l); exact H.
  - apply accounting_process. exact H.
  - cbn [op_in_time] in Ht. unfold _on_task_complete. rewrite Ht.
    cbn [stats pending_futures futures_created add_completed set_processing
         completed_tasks].
    pose proof (remove_first_length _ _ Ht). lia.
Qed.

(** No future is lost: as long as the done-callback fires for pending
    futures only, the futures that the pool made are those still pending
    and those counted as completed. *)
Theorem every_future_is_pending_or_completed ops :
  ops_in_time ops init = true ->
  completed_tasks (stats (run_ops ops init))
    + List.length (pending_futures (run_ops ops init))
  = futures_created (run_ops ops init).
Proof.
  assert (H : forall l,
             ops_in_time ops l = true ->
             completed_tasks (stats l) + List.length (pending_futures l)
               = futures_created l ->
             completed_tasks (stats (run_ops ops l))
               + List.length (pending_futures (run_ops ops l))
             = futures_created (run_ops ops l)).
  { unfold run_ops. induction ops as [|op rest IH]; intros l Ht Hl; [exact Hl|].
    cbn [ops_in_time] in Ht. apply andb_true_iff in Ht. destruct Ht as [Ht1 Ht2].
    cbn [fold_left]. apply IH; [exact Ht2|]. apply accounting_apply_op; assumption. }
  intros Ht. apply H; [exact Ht | reflexivity].
Qed.

Lemma every_future_is_pending_or_completed_witness :
  let first := {| future_id := 0; future_emails := [letter "7"; letter "8"] |} in
  let ops := [OpStart idle_server;
              OpPoll (FetchReturn true [letter "7"; letter "8"]);
              OpPoll (FetchReturn true [letter "9"]);
              OpComplete first] in
  ops_in_time ops init = true /\
  completed_tasks (stats (run_ops ops init))
    + List.length (pending_futures (run_ops ops init))
  = futures_created (run_ops ops init).
Proof.
  cbv zeta. split.
  - reflexivity.
  - apply every_future_is_pending_or_completed. reflexivity.
Defined.

(** ** What a poll remembers *)

Lemma last_uid_process_new_emails emails l :
  last_uid (_process_new_emails emails l) = last_uid l.
Proof.
  unfold _process_new_emails. destruct emails as [|e rest]; [reflexivity|].
  cbn. destruct (executor l); reflexivity.
Qed.

Lemma executor_process_new_emails emails l :
  executor (_process_new_emails emails l) = executor l.
Proof.
  unfold _process_new_emails. destruct emails as [|e rest]; [reflexivity|].
  cbn. destruct (executor l) eqn:He; cbn; exact He.
Qed.

(** What a successful poll with new messages does. *)
Lemma poll_submits l emails e rest :
  executor l = true ->
  filter (is_new (last_uid l)) emails = e :: rest ->
  let l1 := fst (_run_polling_mode_safe (FetchReturn true emails) l) in
  last_uid l1 = Some (Mail.msg_id e) /\
  executor l1 = true /\
  exists before,
    pending_futures l1 =
    before ++ [{| future_id := futures_created l; future_emails := e :: rest |}].
Proof.
  intros He Hnew. cbv zeta. unfold _run_polling_mode_safe.
  destruct (receive_service l).
  - cbn [set_stats last_uid]. rewrite Hnew. cbn [fst].
    rewrite last_uid_process_new_emails, executor_process_new_emails.
    split; [reflexivity|]. split; [exact He|].
    unfold _process_new_emails. cbn [set_last_uid set_stats executor].
    rewrite He. exists (pending_futures l). reflexivity.
  - cbn [set_stats set_receive_service last_uid]. rewrite Hnew. cbn [fst].
    rewrite last_uid_process_new_emails, executor_process_new_emails.
    split; [reflexivity|]. split; [exact He|].
    unfold _process_new_emails.
    cbn [set_last_uid set_stats set_receive_service executor].
    rewrite He. exists (pending_futures l). reflexivity.
Qed.

(** The polling listener remembers a single id, that of the newest
    message it submitted.  When the server reports the same unread
    messages once more (they could not be marked as read), every one of
    them but that newest is submitted again. *)
Theorem poll_remembers_one_id l emails e rest b :
  executor l = true ->
  filter (is_new (last_uid l)) emails = e :: rest ->
  In b emails ->
  Mail.msg_id b <> Mail.msg_id e ->
  let l1 := fst (_run_polling_mode_safe (FetchReturn true emails) l) in
  let l2 := fst (_run_polling_mode_safe (FetchReturn true emails) l1) in
  last_uid l1 = Some (Mail.msg_id e) /\
  exists again,
    last_item (pending_futures l2) = Some again /\
    future_id again = futures_created l1 /\
    In b (future_emails again) /\
    ~ In e (future_emails again).
Proof.
  intros He Hnew Hin Hneq. cbv zeta.
  destruct (@poll_submits l emails e rest He Hnew) as [Huid [He1 _]].
  split; [exact Huid|].
  set (l1 := fst (_run_polling_mode_safe (FetchReturn true emails) l)) in *.
  assert (Hb : In b (filter (is_new (last_uid l1)) emails)).
  { apply filter_In. split; [exact Hin|]. rewrite Huid. cbn [is_new].
    apply negb_true_iff, String.eqb_neq. exact Hneq. }
  destruct (filter (is_new (last_uid l1)) emails) as [|e2 rest2] eqn:Hnew2;
    [destruct Hb|].
  destruct (@poll_submits l1 emails e2 rest2 He1 Hnew2) as [_ [_ [before Hp]]].
  rewrite Hp, last_item_app_tail. eexists. split; [reflexivity|].
  split; [reflexivity|]. split; [exact Hb|].
  cbn [future_emails]. rewrite <- Hnew2. intros Hfe.
  apply filter_In in Hfe. destruct Hfe as [_ Hfe]. rewrite Huid in Hfe.
  cbn [is_new] in Hfe. rewrite String.eqb_refl in Hfe. discriminate.
Qed.

Lemma poll_remembers_one_id_witness :
  let l := fst (start idle_server init) in
  let emails := [letter "9"; letter "8"] in
  (executor l = true /\
   filter (is_new (last_uid l)) emails = letter "9" :: [letter "8"] /\
   In (letter "8") emails /\
   Mail.msg_id (letter "8") <> Mail.msg_id (letter "9")) /\
  let l1 := fst (_run_polling_mode_safe (FetchReturn true emails) l) in
  let l2 := fst (_run_polling_mode_safe (FetchReturn true emails) l1) in
  last_uid l1 = Some (Mail.msg_id (letter "9")) /\
  exists again,
    last_item (pending_futures l2) = Some again /\
    future_id again = futures_created l1 /\
    In (letter "8") (future_emails again) /\
    ~ In (letter "9") (future_emails again).
Proof.
  cbv zeta. split.
  - split; [reflexivity | split; [reflexivity | split;
      [right; left; reflexivity | discriminate]]].
  - apply (@poll_remembers_one_id (fst (start idle_server init))
             [letter "9"; letter "8"] (letter "9") [letter "8"] (letter "8")).
    + reflexivity.
    + reflexivity.
    + right. left. reflexivity.
    + discriminate.
Defined.

End ListenerMore.

(* ===================================================================== *)
(** * Properties of reading the mailbox                                   *)
(* ===================================================================== *)

Module InboxProofs.
Import Inbox.
Local Open Scope list_scope.

Lemma fetch_all_length mb ids : List.length (fetch_all mb ids) <= List.length ids.
Proof.
  induction ids as [|uid rest IH]; [apply le_n|].
  cbn [fetch_all]. destruct (fetch_email mb uid); cbn [List.length]; lia.
Qed.

Lemma fetch_all_ids mb ids :
  map Mail.msg_id (fetch_all mb ids) =
  filter (fun uid => match fetch_email mb uid with
                     | Fetched _ => true
                     | _ => false
                     end) ids.
Proof.
  induction ids as [|uid rest IH]; [reflexivity|].
  cbn [fetch_all filter]. destruct (fetch_email mb uid); cbn [map]; now rewrite IH.
Qed.

Lemma newest_length count ids :
  List.length (newest count ids) <= List.length ids /\
  ((0 < count)%Z -> (Z.of_nat (List.length (newest count ids)) <= count)%Z).
Proof.
  unfold newest. destruct (Z.ltb_spec 0 count) as [Hpos|Hnot].
  - rewrite length_skipn. split; lia.
  - split; [apply le_n | lia].
Qed.

(** [receive_emails] answers in every case.  Its [count] is the number of
    messages it returns, which is at most the number of ids found and,
    under a positive [count], at most that count; when the search fails
    it reports failure with no message. *)
Theorem receive_emails_bounds mb n mark_as_read filter_unseen :
  let r := receive_emails mb n mark_as_read filter_unseen in
  count r = List.length (emails r) /\
  List.length (emails r) <= total r /\
  ((0 < n)%Z -> (Z.of_nat (List.length (emails r)) <= n)%Z) /\
  (success r = true <-> search_emails mb filter_unseen <> None) /\
  (success r = false -> emails r = [] /\ marked r = []).
Proof.
  cbv zeta. unfold receive_emails.
  destruct (search_emails mb filter_unseen) as [ids|]; cbn [count emails total success marked].
  - pose proof (fetch_all_length mb (rev (newest n ids))) as Hf.
    rewrite length_rev in Hf.
    destruct (newest_length n ids) as [Hle Hpos].
    split; [reflexivity|]. split; [lia|]. split; [intros H; specialize (Hpos H); lia|].
    split; [split; [discriminate | reflexivity] | discriminate].
  - split; [reflexivity|]. split; [apply le_n|]. split; [intros; cbn; lia|].
    split; [split; [discriminate | congruence] | split; reflexivity].
Qed.

(** The messages come newest first: their ids are the last [count] ids of
    the search, reversed, without those that could not be fetched or
    parsed; each message carries the id it was fetched under, and with
    [mark_as_read] exactly those ids are marked. *)
Theorem receive_emails_newest_first mb n mark_as_read filter_unseen ids :
  search_emails mb filter_unseen = Some ids ->
  let r := receive_emails mb n mark_as_read filter_unseen in
  map Mail.msg_id (emails r) =
    filter (fun uid => match fetch_email mb uid with
                       | Fetched _ => true
                       | _ => false
                       end) (rev (newest n ids)) /\
  marked r = (if mark_as_read then map Mail.msg_id (emails r) else []).
Proof.
  intros Hs. cbv zeta. unfold receive_emails. rewrite Hs. cbn [emails marked].
  split; [apply fetch_all_ids | reflexivity].
Qed.

Lemma receive_emails_newest_first_witness :
  search_emails demo_mailbox true = Some twelve /\
  let r := receive_emails demo_mailbox 10 true true in
  map Mail.msg_id (emails r) =
    filter (fun uid => match fetch_email demo_mailbox uid with
                       | Fetched _ => true
                       | _ => false
                       end) (rev (newest 10 twelve)) /\
  marked r = (if true then map Mail.msg_id (emails r) else []).
Proof.
  split; [reflexivity|].
  apply (@receive_emails_newest_first demo_mailbox 10%Z true true twelve).
  reflexivity.
Defined.

(** ** The listener over a mailbox *)

(** A poll of the listener asks for the ten newest unseen messages: it
    never takes the exception path, and a batch it hands to the pool has
    at most ten messages. *)
Theorem poll_hands_over_at_most_ten mb l :
  let polled := Listener._run_polling_mode_safe
                  (answer (receive_unread_emails mb 10)) l in
  snd polled = false /\
  forall f, In f (Listener.pending_futures (fst polled)) ->
            In f (Listener.pending_futures l) \/
            List.length (Listener.future_emails f) <= 10.
Proof.
  cbv zeta.
  pose proof (receive_emails_bounds mb 10 false true) as Hb. cbv zeta in Hb.
  destruct Hb as [_ [_ [Hten _]]]. specialize (Hten eq_refl).
  unfold receive_unread_emails, answer, Listener._run_polling_mode_safe.
  set (r := receive_emails mb 10 false true) in *.
  destruct (success r).
  - set (l0 := if Listener.receive_service l then l else _).
    assert (Hpend : Listener.pending_futures l0 = Listener.pending_futures l)
      by (subst l0; destruct (Listener.receive_service l); reflexivity).
    cbn [Listener.set_stats Listener.last_uid].
    pose proof (filter_length_le
                  (Listener.is_new (Listener.last_uid l0)) (emails r)) as Hfl.
    destruct (filter (Listener.is_new (Listener.last_uid l0)) (emails r))
      as [|e rest] eqn:Hnew.
    + cbn [fst snd Listener.set_stats Listener.pending_futures].
      split; [reflexivity|]. intros f Hf. left. rewrite <- Hpend. exact Hf.
    + cbn [fst snd]. split; [reflexivity|]. intros f Hf.
      unfold Listener._process_new_emails in Hf.
      cbn [Listener.set_stats Listener.set_last_uid Listener.executor] in Hf.
      destruct (Listener.executor l0).
      * cbn [Listener.submit Listener.set_stats Listener.set_last_uid
             Listener.pending_futures Listener.stats
             Listener.futures_created] in Hf.
        apply in_app_or in Hf. destruct Hf as [Hf|[Hf|[]]].
        -- left. rewrite <- Hpend. exact Hf.
        -- right. subst f. cbn [Listener.future_emails]. lia.
      * cbn [Listener.set_stats Listener.set_last_uid
             Listener.pending_futures] in Hf.
        left. rewrite <- Hpend. exact Hf.
  - cbn [fst snd]. split; [reflexivity|]. intros f Hf. left.
    destruct (Listener.receive_service l); exact Hf.
Qed.

(** After its start the listener remembers the newest message of the
    folder: when the last id of the search can be fetched, [_last_uid] is
    that id. *)
Theorem start_remembers_the_newest t n at_start at_poll l older uid parsed :
  Listener.running l = false ->
  (0 < n)%Z ->
  search_emails at_start false = Some (older ++ [uid]) ->
  fetch_email at_start uid = Fetched parsed ->
  Listener.last_uid (fst (Listener.start (server_over t n at_start at_poll) l))
    = Some uid.
Proof.
  intros Hrun Hn Hs Hf. unfold Listener.start. rewrite Hrun.
  cbn [server_over Listener.latest_emails]. unfold receive_latest_emails, answer,
    receive_emails. rewrite Hs. cbn [success emails].
  assert (Hnew : exists before, newest n (older ++ [uid]) = before ++ [uid]).
  { unfold newest. rewrite (proj2 (Z.ltb_lt 0 n) Hn).
    rewrite length_app. cbn [List.length].
    destruct (Z.to_nat n) as [|m] eqn:Hm; [lia|].
    replace (List.length older + 1 - S m) with (List.length older - m) by lia.
    rewrite skipn_app.
    replace (List.length older - m - List.length older) with 0 by lia.
    cbn [skipn]. eexists. reflexivity. }
  destruct Hnew as [before Hnew]. rewrite Hnew, rev_app_distr.
  cbn [rev app fetch_all]. rewrite Hf. reflexivity.
Qed.

Lemma start_remembers_the_newest_witness :
  (Listener.running Listener.init = false /\
   (0 < 30)%Z /\
   search_emails demo_mailbox false =
     Some (["1"; "2"; "3"; "4"; "5"; "6"; "7"; "8"; "9"; "10"; "11"] ++ ["12"]) /\
   fetch_email demo_mailbox "12" = Fetched (Listener.letter "12")) /\
  Listener.last_uid
    (fst (Listener.start
            (server_over plain_transport 30 demo_mailbox (fun _ => demo_mailbox))
            Listener.init))
    = Some "12"%string.
Proof.
  split.
  - split; [reflexivity | split; [reflexivity | split; reflexivity]].
  - apply (@start_remembers_the_newest plain_transport 30%Z demo_mailbox
             (fun _ => demo_mailbox) Listener.init
             ["1"; "2"; "3"; "4"; "5"; "6"; "7"; "8"; "9"; "10"; "11"]%string
             "12"%string (Listener.letter "12")); reflexivity.
Defined.

(** ** Setting flags *)

Lemma store_each_ids store msg_ids results :
  store_each store msg_ids = Some results ->
  results = filter (fun uid => match store uid with
                              | StoreOK => true
                              | _ => false
                              end) msg_ids.
Proof.
  revert results. induction msg_ids as [|uid rest IH]; intros results H.
  - inversion H. reflexivity.
  - cbn [store_each filter] in *. destruct (store uid).
    + destruct (store_each store rest) as [r|]; [|discriminate].
      inversion H; subst. f_equal. apply IH. reflexivity.
    + apply IH. exact H.
    + discriminate.
Qed.

(** [store_flags] reports success as soon as no command raised: the ids
    it returns are those the server accepted, in order, and their number
    may be smaller than the number asked for, down to none. *)
Theorem store_flags_success_counts_accepted select_folder_ok store msg_ids :
  store_success (store_flags select_folder_ok store msg_ids) = true ->
  let r := store_flags select_folder_ok store msg_ids in
  store_msg_ids r = filter (fun uid => match store uid with
                                       | StoreOK => true
                                       | _ => false
                                       end) msg_ids /\
  store_count r = List.length (store_msg_ids r) /\
  store_count r <= List.length msg_ids /\
  Forall (fun uid => store uid <> StoreRaised) msg_ids.
Proof.
  cbv zeta. unfold store_flags. destruct select_folder_ok; [|discriminate].
  destruct (store_each store msg_ids) as [results|] eqn:Hs; [|discriminate].
  intros _. cbn [store_msg_ids store_count].
  pose proof (store_each_ids _ _ Hs) as Hr. split; [exact Hr|].
  split; [reflexivity|]. split.
  - rewrite Hr. apply filter_length_le.
  - clear Hr. revert results Hs.
    induction msg_ids as [|uid rest IH]; intros results Hs; [constructor|].
    cbn [store_each] in Hs. destruct (store uid) eqn:Hu.
    + destruct (store_each store rest) as [r|] eqn:Hrest; [|discriminate].
      constructor; [congruence | exact (IH r eq_refl)].
    + constructor; [congruence | exact (IH results Hs)].
    + discriminate.
Qed.

Lemma store_flags_success_counts_accepted_witness :
  let store := fun _ : string => StoreRefused in
  store_success (store_flags true store ["7"; "8"]%string) = true /\
  let r := store_flags true store ["7"; "8"]%string in
  store_msg_ids r = filter (fun uid => match store uid with
                                       | StoreOK => true
                                       | _ => false
                                       end) ["7"; "8"]%string /\
  store_count r = List.length (store_msg_ids r) /\
  store_count r <= List.length ["7"; "8"]%string /\
  Forall (fun uid => store uid <> StoreRaised) ["7"; "8"]%string.
Proof.
  cbv zeta. split; [reflexivity|].
  apply (@store_flags_success_counts_accepted true (fun _ => StoreRefused)
           ["7"; "8"]%string).
  reflexivity.
Defined.

End InboxProofs.

(* ===================================================================== *)
(** * More about the caches of processed ids                              *)
(* ===================================================================== *)

Module DedupMore.
Import Dedup DedupProofs.
Local Open Scope list_scope.

Lemma place_last_perm : forall s x, Permutation (x :: s) (place_last s x).
Proof. intros s x. unfold place_last. apply Permutation_cons_append. Qed.

Section AnyOrder.

Variable place : Placement.
Hypothesis place_perm : forall s x, Permutation (x :: s) (place s x).

Lemma set_add_In s x y : In y (set_add place s x) <-> y = x \/ In y s.
Proof.
  unfold set_add. destruct (set_contains s x) eqn:Hc.
  - apply set_contains_In in Hc. split; [now right|].
    intros [->|H]; assumption.
  - split.
    + intros H. apply (Permutation_in _ (Permutation_sym (place_perm s x))) in H.
      destruct H as [->|H]; [now left | now right].
    + intros H. apply (Permutation_in _ (place_perm s x)).
      destruct H as [->|H]; [now left | now right].
Qed.

(** What [mark_processed] keeps is the new id or was in the cache. *)
Lemma mark_processed_In cache email_id cache' y :
  mark_processed place cache email_id = Some cache' ->
  In y cache' -> y = email_id \/ In y cache.
Proof.
  unfold mark_processed. destruct (set_contains cache email_id); [discriminate|].
  cbv zeta.
  destruct (Nat.ltb cache_limit (List.length (set_add place cache email_id)));
    intros Heq Hy.
  - assert (E : difference_update (set_add place cache email_id)
                  (firstn evicted_count (set_add place cache email_id)) = cache')
      by congruence.
    rewrite <- E in Hy. unfold difference_update in Hy.
    apply filter_In in Hy. apply set_add_In. exact (proj1 Hy).
  - assert (E : set_add place cache email_id = cache') by congruence.
    rewrite <- E in Hy. apply set_add_In. exact Hy.
Qed.

Lemma mark_processed_new cache email_id :
  ~ In email_id cache -> exists cache', mark_processed place cache email_id = Some cache'.
Proof.
  intros Hnot. unfold mark_processed.
  rewrite (proj2 (set_contains_false cache email_id) Hnot). cbv zeta.
  destruct (Nat.ltb cache_limit (List.length (set_add place cache email_id)));
    eexists; reflexivity.
Qed.

(** Messages that are new are never lost to the cache: a batch of
    messages with distinct ids, none of them in the cache, is handed to
    the agent whole and in order, whether or not the cache overflows on
    the way. *)
Theorem fresh_messages_are_all_handled emails :
  forall cache,
    NoDup (map Mail.msg_id emails) ->
    (forall e, In e emails -> ~ In (Mail.msg_id e) cache) ->
    snd (on_new_email place emails cache) = emails.
Proof.
  induction emails as [|e rest IH]; intros cache Hnd Hfresh; [reflexivity|].
  cbn [on_new_email]. cbn [map] in Hnd. apply NoDup_cons_iff in Hnd.
  destruct Hnd as [Hhead Hnd].
  destruct (@mark_processed_new cache (Mail.msg_id e) (Hfresh e (or_introl eq_refl)))
    as [cache' Hm].
  rewrite Hm.
  assert (Hrest : snd (on_new_email place rest cache') = rest).
  { apply IH; [exact Hnd|]. intros e2 Hin Hc.
    destruct (@mark_processed_In cache (Mail.msg_id e) cache' _ Hm Hc) as [Heq|Hold].
    - apply Hhead. rewrite <- Heq. apply in_map. exact Hin.
    - exact (Hfresh e2 (or_intror Hin) Hold). }
  destruct (on_new_email place rest cache') as [final handled].
  cbn [snd] in *. rewrite Hrest. reflexivity.
Qed.

(** Without eviction [mark_processed] only adds the id. *)
Lemma mark_processed_small cache email_id cache' :
  List.length cache < cache_limit ->
  mark_processed place cache email_id = Some cache' ->
  ~ In email_id cache /\
  List.length cache' = S (List.length cache) /\
  (forall y, In y cache' <-> y = email_id \/ In y cache).
Proof.
  intros Hlen. unfold mark_processed.
  destruct (set_contains cache email_id) eqn:Hc; [discriminate|]. cbv zeta.
  pose proof (@set_add_length_new place place_perm cache email_id Hc) as Hadd.
  destruct (Nat.ltb_spec cache_limit (List.length (set_add place cache email_id)))
    as [Hover|Hunder]; [lia|].
  intros Heq.
  assert (E : set_add place cache email_id = cache') by congruence.
  rewrite <- E. split; [now apply set_contains_false|]. split; [exact Hadd|].
  intros y. apply set_add_In.
Qed.

(** As long as the cache has room for the whole batch, it removes
    exactly the duplicates: the messages handed to the agent have
    distinct ids, none of which was in the cache, and afterwards the
    cache holds what it held and the id of every message of the batch. *)
Theorem batch_that_fits_is_deduplicated emails :
  forall cache,
    List.length cache + List.length emails <= cache_limit ->
    let final := fst (on_new_email place emails cache) in
    let handled := snd (on_new_email place emails cache) in
    NoDup (map Mail.msg_id handled) /\
    (forall e, In e handled -> In e emails /\ ~ In (Mail.msg_id e) cache) /\
    (forall y, In y final <->
               In y cache \/ In y (map Mail.msg_id emails)).
Proof.
  induction emails as [|e rest IH]; intros cache Hlen; cbv zeta.
  - cbn. split; [constructor|]. split; [intros e []|].
    intros y. split; [now left | intros [H|[]]; exact H].
  - cbn [on_new_email]. cbn [List.length] in Hlen.
    destruct (mark_processed place cache (Mail.msg_id e)) as [cache'|] eqn:Hm.
    + assert (Hsmall : List.length cache < cache_limit) by lia.
      destruct (@mark_processed_small cache (Mail.msg_id e) cache' Hsmall Hm)
        as [Hnew [Hl' Hin']].
      assert (Hlen' : List.length cache' + List.length rest <= cache_limit) by lia.
      specialize (IH cache' Hlen'). cbv zeta in IH.
      destruct (on_new_email place rest cache') as [final handled].
      cbn [fst snd] in *. destruct IH as [Hnd [Hh Hf]].
      split; [|split].
      * cbn [map]. constructor; [|exact Hnd].
        intros Hdup. apply in_map_iff in Hdup. destruct Hdup as [e2 [Heq He2]].
        destruct (Hh e2 He2) as [_ Hnot]. apply Hnot. apply Hin'. now left.
      * intros e2 [<-|He2]; [split; [now left | exact Hnew]|].
        destruct (Hh e2 He2) as [Hin Hnot]. split; [now right|].
        intros Hc. apply Hnot. apply Hin'. now right.
      * intros y. rewrite Hf, Hin'. cbn [map In]. split.
        -- intros [[->|H]|H]; [right; now left | now left | right; now right].
        -- intros [H|[<-|H]]; [left; now right | left; now left | now right].
    + assert (Hold : In (Mail.msg_id e) cache).
      { unfold mark_processed in Hm.
        destruct (set_contains cache (Mail.msg_id e)) eqn:Hc.
        - now apply set_contains_In.
        - cbv zeta in Hm.
          destruct (Nat.ltb cache_limit _) in Hm; discriminate. }
      assert (Hlen' : List.length cache + List.length rest <= cache_limit) by lia.
      specialize (IH cache Hlen'). cbv zeta in IH.
      destruct (on_new_email place rest cache) as [final handled].
      cbn [fst snd] in *. destruct IH as [Hnd [Hh Hf]].
      split; [exact Hnd|]. split.
      * intros e2 He2. destruct (Hh e2 He2) as [Hin Hnot]. split; [now right | exact Hnot].
      * intros y. rewrite Hf. cbn [map In]. split.
        -- intros [H|H]; [now left | right; now right].
        -- intros [H|[<-|H]]; [now left | now left | now right].
Qed.

End AnyOrder.

Lemma fresh_messages_are_all_handled_witness :
  let emails := map mail_of [7; 8; 9] in
  ((forall s x, Permutation (x :: s) (place_last s x)) /\
   NoDup (map Mail.msg_id emails) /\
   (forall e, In e emails -> ~ In (Mail.msg_id e) ["1"; "2"])) /\
  snd (on_new_email place_last emails ["1"; "2"]) = emails.
Proof.
  cbv zeta.
  assert (Hnd : NoDup (map Mail.msg_id (map mail_of [7; 8; 9]))).
  { cbn. repeat constructor; cbn; intuition discriminate. }
  assert (Hfresh : forall e, In e (map mail_of [7; 8; 9]) ->
                             ~ In (Mail.msg_id e) ["1"; "2"]).
  { intros e [<-|[<-|[<-|[]]]]; cbn; intuition discriminate. }
  split.
  - split; [exact place_last_perm | split; assumption].
  - exact (@fresh_messages_are_all_handled place_last place_last_perm
             (map mail_of [7; 8; 9]) ["1"; "2"] Hnd Hfresh).
Defined.

Lemma batch_that_fits_is_deduplicated_witness :
  let emails := map mail_of [7; 8; 7; 1] in
  let cache := ["1"; "2"] in
  ((forall s x, Permutation (x :: s) (place_last s x)) /\
   List.length cache + List.length emails <= cache_limit) /\
  let final := fst (on_new_email place_last emails cache) in
  let handled := snd (on_new_email place_last emails cache) in
  NoDup (map Mail.msg_id handled) /\
  (forall e, In e handled -> In e emails /\ ~ In (Mail.msg_id e) cache) /\
  (forall y, In y final <-> In y cache \/ In y (map Mail.msg_id emails)).
Proof.
  cbv zeta.
  assert (Hfit : List.length ["1"; "2"] + List.length (map mail_of [7; 8; 7; 1])
                 <= cache_limit) by (unfold cache_limit; cbn; lia).
  split.
  - split; [exact place_last_perm | exact Hfit].
  - exact (@batch_that_fits_is_deduplicated place_last place_last_perm
             (map mail_of [7; 8; 7; 1]) ["1"; "2"] Hfit).
Defined.

(** The bound of the cache over a whole batch, for the set that iterates
    in the order of insertion. *)
Lemma on_new_email_bound_witness :
  let emails := map mail_of [7; 8; 9] in
  ((forall s x, Permutation (x :: s) (place_last s x)) /\
   NoDup ["1"; "2"] /\ List.length ["1"; "2"] <= cache_limit) /\
  NoDup (fst (on_new_email place_last emails ["1"; "2"])) /\
  List.length (fst (on_new_email place_last emails ["1"; "2"])) <= cache_limit.
Proof.
  cbv zeta.
  assert (Hnd : NoDup ["1"; "2"])
    by (repeat constructor; cbn; intuition discriminate).
  assert (Hlen : List.length ["1"; "2"] <= cache_limit)
    by (unfold cache_limit; cbn; lia).
  split.
  - split; [exact place_last_perm | split; assumption].
  - exact (@on_new_email_bound place_last place_last_perm
             (map mail_of [7; 8; 9]) ["1"; "2"] Hnd Hlen).
Defined.

End DedupMore.

(* ===================================================================== *)
(** * Properties of the IDLE listener                                     *)
(* ===================================================================== *)

Module IdleListenerProofs.
Import Dedup DedupProofs IdleListener.
Local Open Scope list_scope.

Lemma handle_uids_finds_nothing uids : forall processed acc processed',
  handle_uids uids [] processed = LoopDone acc processed' ->
  acc = [] /\ processed' = processed.
Proof.
  induction uids as [|uid rest IH]; intros processed acc processed' H.
  - inversion H. split; reflexivity.
  - cbn [handle_uids] in H. destruct (set_contains processed uid); [|discriminate].
    exact (IH _ _ _ H).
Qed.

Section AnyOrder.

Variable place : Placement.
Hypothesis place_perm : forall s x, Permutation (x :: s) (place s x).

Lemma set_of_list_In l : forall acc y,
  In y (fold_left (set_add place) l acc) -> In y l \/ In y acc.
Proof.
  induction l as [|x l IH]; intros acc y H; [now right|].
  cbn [fold_left] in H. destruct (IH _ _ H) as [Hl|Hacc]; [left; now right|].
  apply (proj1 (@DedupMore.set_add_In place place_perm acc x y)) in Hacc.
  destruct Hacc as [->|Hacc]; [left; now left | now right].
Qed.

Lemma trim_processed_uids_In uids y :
  In y (trim_processed_uids place uids) -> In y uids.
Proof.
  unfold trim_processed_uids.
  destruct (Nat.ltb cache_limit (List.length uids)); [|exact (fun H => H)].
  unfold set_of_list. intros H. destruct (set_of_list_In _ _ _ H) as [Hl|[]].
  rewrite <- (firstn_skipn (List.length uids - evicted_count) uids).
  apply in_or_app. now right.
Qed.

Lemma handle_new_emails_quiet found l :
  submitted (_handle_new_emails place found l) = submitted l /\
  running (_handle_new_emails place found l) = running l /\
  (forall y, In y (processed_uids (_handle_new_emails place found l)) ->
             In y (processed_uids l)).
Proof.
  unfold _handle_new_emails. destruct found as [|[|] uids].
  - split; [reflexivity | split; [reflexivity | auto]].
  - destruct (handle_uids uids [] (processed_uids l)) as [acc processed'|] eqn:Hloop.
    + destruct (@handle_uids_finds_nothing uids _ _ _ Hloop) as [Hacc Hproc].
      subst acc processed'. cbn [submitted running processed_uids].
      split; [reflexivity | split; [reflexivity|]].
      intros y. apply trim_processed_uids_In.
    + split; [reflexivity | split; [reflexivity | auto]].
  - split; [reflexivity | split; [reflexivity | auto]].
Qed.

(** The IDLE listener hands no message to its callback.  Whatever the
    server signals and answers over the turns of a started listener, no
    call of [submit] is made and no id enters the set of processed ids:
    a uid that is not in the set stops [_handle_new_emails] with an
    [AttributeError], and a uid that is in the set is skipped. *)
Theorem idle_listener_hands_over_nothing unread turns :
  let l0 := fst (start place true unread init) in
  submitted (idle_turns place turns l0) = [] /\
  forall y, In y (processed_uids (idle_turns place turns l0)) ->
            In y (processed_uids l0).
Proof.
  cbv zeta.
  assert (H : forall l,
             submitted (idle_turns place turns l) = submitted l /\
             forall y, In y (processed_uids (idle_turns place turns l)) ->
                       In y (processed_uids l)).
  { induction turns as [|t rest IH]; intros l; [split; auto|].
    cbn [idle_turns]. destruct (running l); [|split; auto].
    destruct (IH (fst (idle_turn place (entered t) (has_signal t) (found t) l)))
      as [Hs Hp].
    assert (Hturn :
              submitted (fst (idle_turn place (entered t) (has_signal t) (found t) l))
                = submitted l /\
              forall y,
                In y (processed_uids
                        (fst (idle_turn place (entered t) (has_signal t) (found t) l))) ->
                In y (processed_uids l)).
    { unfold idle_turn. destruct (entered t); cbn [negb fst]; [|split; auto].
      destruct (has_signal t); [|split; auto].
      destruct (handle_new_emails_quiet (found t)
                  {| state := PROCESSING; running := running l;
                     processed_uids := processed_uids l;
                     submitted := submitted l |}) as [Hq1 [_ Hq3]].
      split; [exact Hq1 | exact Hq3]. }
    destruct Hturn as [Ht1 Ht2]. split; [now rewrite Hs | auto]. }
  destruct (H (fst (start place true unread init))) as [Hs Hp].
  split; [|exact Hp]. rewrite Hs.
  unfold start, init, _initial_sync. cbn [running fst].
  destruct unread as [[|] found|]; reflexivity.
Qed.

End AnyOrder.

Lemma idle_listener_hands_over_nothing_witness :
  let unread := Listener.FetchReturn true [mail_of 1; mail_of 2] in
  let turns := [{| entered := true; has_signal := true;
                   found := UidSearchReturned true ["1"; "2"; "3"] |};
                {| entered := true; has_signal := true;
                   found := UidSearchReturned true ["3"] |}] in
  (forall s x, Permutation (x :: s) (place_last s x)) /\
  let l0 := fst (start place_last true unread init) in
  submitted (idle_turns place_last turns l0) = [] /\
  forall y, In y (processed_uids (idle_turns place_last turns l0)) ->
            In y (processed_uids l0).
Proof.
  cbv zeta. split; [exact DedupMore.place_last_perm|].
  exact (@idle_listener_hands_over_nothing place_last DedupMore.place_last_perm
           (Listener.FetchReturn true [mail_of 1; mail_of 2]) _).
Defined.

End IdleListenerProofs.

(* ===================================================================== *)
(** * Properties of the configuration                                     *)
(* ===================================================================== *)

Module SettingsProofs.
Import Settings.
Local Open Scope list_scope.

Lemma present_key_has_value key entries :
  existsb (fun kv : string * Yaml => (fst kv =? key)%string) entries = true ->
  exists v, lookup key entries = Some v.
Proof.
  unfold lookup. induction entries as [|[k v] rest IH]; [discriminate|].
  cbn [existsb find fst]. destruct (k =? key)%string.
  - intros _. exists v. reflexivity.
  - cbn [orb]. exact IH.
Qed.

(** What the validation of a mapping amounts to. *)
Lemma missing_keys_of_mapping entries required_keys :
  missing_keys (YDict entries) required_keys =
  inr (filter (fun key =>
                 negb (existsb (fun kv : string * Yaml => (fst kv =? key)%string)
                         entries)) required_keys).
Proof.
  induction required_keys as [|key rest IH]; [reflexivity|].
  cbn [missing_keys key_in bind filter]. rewrite IH. cbn [bind].
  destruct (existsb _ entries); reflexivity.
Qed.

Lemma validated_mapping_has_two_keys entries k1 k2 section_name :
  validate_config_keys (YDict entries) [k1; k2] section_name = inr tt ->
  exists v1 v2, lookup k1 entries = Some v1 /\ lookup k2 entries = Some v2.
Proof.
  unfold validate_config_keys. rewrite missing_keys_of_mapping.
  cbn [bind filter].
  destruct (existsb (fun kv : string * Yaml => (fst kv =? k1)%string) entries) eqn:H1;
    destruct (existsb (fun kv : string * Yaml => (fst kv =? k2)%string) entries) eqn:H2;
    cbn [negb]; try discriminate.
  intros _. destruct (present_key_has_value _ _ H1) as [v1 Hv1].
  destruct (present_key_has_value _ _ H2) as [v2 Hv2].
  exists v1, v2. split; assumption.
Qed.

(** A configuration that loads, with its two sections written as
    mappings, gives the workflow both addresses: [get_imap_config] and
    [get_master_info] return the values under [email_sender],
    [auth_code], [master_email] and [master_name].  The name is always
    the one of the file: the default ["Ethan"] of [get_master_info] is
    out of reach, because the loader demands [master_name]. *)
Theorem loaded_config_gives_both_addresses section top email master loaded :
  _load_config section (YDict top) = inr loaded ->
  lookup section top = Some (YDict email) ->
  lookup "master" top = Some (YDict master) ->
  loaded = YDict top /\
  exists sender code owner name,
    lookup "email_sender" email = Some sender /\
    lookup "auth_code" email = Some code /\
    lookup "master_email" master = Some owner /\
    lookup "master_name" master = Some name /\
    get_master_info loaded = inr (owner, name) /\
    (exists server port,
        get_imap_config section loaded = inr (server, port, sender, code)).
Proof.
  intros Hload Hemail Hmaster. unfold _load_config in Hload.
  destruct (validate_config_keys (YDict top) [section; "llm"%string] "配置文件")
    as [e|[]]; [discriminate|].
  cbn [bind item] in Hload. rewrite Hemail in Hload. cbn [bind] in Hload.
  destruct (validate_config_keys (YDict email)
              ["email_sender"%string; "auth_code"%string]
              ("邮件配置(" ++ section ++ ")")%string) as [e|[]] eqn:Hv1;
    [discriminate|].
  cbn [bind] in Hload.
  destruct (validate_config_keys (YDict top) ["master"%string] "配置文件")
    as [e|[]]; [discriminate|].
  cbn [bind item] in Hload. rewrite Hmaster in Hload. cbn [bind] in Hload.
  destruct (validate_config_keys (YDict master)
              ["master_email"%string; "master_name"%string] "master配置")
    as [e|[]] eqn:Hv2; [discriminate|].
  cbn [bind] in Hload. inversion Hload; subst loaded. split; [reflexivity|].
  destruct (validated_mapping_has_two_keys _ _ _ _ Hv1) as [sender [code [Hs Hc]]].
  destruct (validated_mapping_has_two_keys _ _ _ _ Hv2) as [owner [name [Ho Hn]]].
  exists sender, code, owner, name.
  split; [exact Hs|]. split; [exact Hc|]. split; [exact Ho|]. split; [exact Hn|].
  split.
  - unfold get_master_info. cbn [bind item get]. rewrite Hmaster. cbn [bind item get].
    rewrite Ho, Hn. reflexivity.
  - unfold get_imap_config. cbn [bind item]. rewrite Hemail. cbn [bind item get].
    rewrite Hs, Hc.
    destruct (lookup "imap_server" email); destruct (lookup "imap_port" email);
      cbn [bind]; eexists; eexists; reflexivity.
Qed.

Lemma loaded_config_gives_both_addresses_witness :
  let top :=
    [("email"%string, YDict [("email_sender"%string, YText "assistant@example.com");
                             ("auth_code"%string, YText "secret")]);
     ("llm"%string, YDict [("model"%string, YText "deepseek-chat");
                           ("api_key"%string, YText "key")]);
     ("master"%string, YDict [("master_email"%string, YText "master@example.com");
                              ("master_name"%string, YText "Master")])] in
  let email := [("email_sender"%string, YText "assistant@example.com");
                ("auth_code"%string, YText "secret")] in
  let master := [("master_email"%string, YText "master@example.com");
                 ("master_name"%string, YText "Master")] in
  (_load_config "email" (YDict top) = inr (YDict top) /\
   lookup "email" top = Some (YDict email) /\
   lookup "master" top = Some (YDict master)) /\
  YDict top = YDict top /\
  exists sender code owner name,
    lookup "email_sender" email = Some sender /\
    lookup "auth_code" email = Some code /\
    lookup "master_email" master = Some owner /\
    lookup "master_name" master = Some name /\
    get_master_info (YDict top) = inr (owner, name) /\
    (exists server port,
        get_imap_config "email" (YDict top) = inr (server, port, sender, code)).
Proof.
  cbv zeta. split.
  - split; [reflexivity | split; reflexivity].
  - apply (@loaded_config_gives_both_addresses "email"
             [("email"%string, YDict [("email_sender"%string, YText "assistant@example.com");
                                      ("auth_code"%string, YText "secret")]);
              ("llm"%string, YDict [("model"%string, YText "deepseek-chat");
                                    ("api_key"%string, YText "key")]);
              ("master"%string, YDict [("master_email"%string, YText "master@example.com");
                                       ("master_name"%string, YText "Master")])]);
      reflexivity.
Defined.

(** A section that is present but empty is not reported as incomplete:
    the membership test on [None] raises [TypeError], and the loader
    raises it again in place of the [ValueError] that names the missing
    keys. *)
Theorem empty_master_section_raises_type_error section top email :
  lookup section top = Some (YDict email) ->
  validate_config_keys (YDict top) [section; "llm"%string] "配置文件" = inr tt ->
  validate_config_keys (YDict email)
    ["email_sender"%string; "auth_code"%string]
    ("邮件配置(" ++ section ++ ")")%string = inr tt ->
  lookup "master" top = Some YNull ->
  _load_config section (YDict top) = inl TypeError.
Proof.
  intros Hemail Hv0 Hv1 Hmaster. unfold _load_config. rewrite Hv0.
  cbn [bind item]. rewrite Hemail. cbn [bind]. rewrite Hv1. cbn [bind].
  assert (Hv : validate_config_keys (YDict top) ["master"%string] "配置文件" = inr tt).
  { unfold validate_config_keys. rewrite missing_keys_of_mapping. cbn [bind filter].
    assert (Hp : existsb (fun kv : string * Yaml => (fst kv =? "master")%string) top
                 = true).
    { clear -Hmaster. unfold lookup in Hmaster.
      induction top as [|[k v] rest IH]; [discriminate|].
      cbn [existsb find fst] in *. destruct (k =? "master")%string; [reflexivity|].
      cbn [orb]. apply IH. exact Hmaster. }
    rewrite Hp. reflexivity. }
  rewrite Hv. cbn [bind item]. rewrite Hmaster. reflexivity.
Qed.

Lemma empty_master_section_raises_type_error_witness :
  let email := [("email_sender"%string, YText "assistant@example.com");
                ("auth_code"%string, YText "secret")] in
  let top := [("email"%string, YDict email); ("llm"%string, YDict []);
              ("master"%string, YNull)] in
  (lookup "email" top = Some (YDict email) /\
   validate_config_keys (YDict top) ["email"%string; "llm"%string] "配置文件" = inr tt /\
   validate_config_keys (YDict email)
     ["email_sender"%string; "auth_code"%string]
     ("邮件配置(" ++ "email" ++ ")")%string = inr tt /\
   lookup "master" top = Some YNull) /\
  _load_config "email" (YDict top) = inl TypeError.
Proof.
  cbv zeta. split.
  - split; [reflexivity | split; [reflexivity | split; reflexivity]].
  - apply (@empty_master_section_raises_type_error "email"
             [("email"%string,
               YDict [("email_sender"%string, YText "assistant@example.com");
                      ("auth_code"%string, YText "secret")]);
              ("llm"%string, YDict []); ("master"%string, YNull)]
             [("email_sender"%string, YText "assistant@example.com");
              ("auth_code"%string, YText "secret")]);
      reflexivity.
Defined.

End SettingsProofs.

(* ===================================================================== *)
(** * Properties of the sender extraction                                 *)
(* ===================================================================== *)

Module AddressProofs.
Import Address.
Local Open Scope string_scope.






(** When the first closing bracket of a header stands before its first
    opening one, the slice between them is empty and no address is
    extracted. *)
Theorem reversed_brackets_give_no_address addr_str i j :
  index "<"%char addr_str = Some i ->
  index ">"%char addr_str = Some j ->
  j <= i ->
  snd (_extract_email_address addr_str) = "".
Proof.
  intros Hi Hj Hle. unfold _extract_email_address. rewrite Hi, Hj.
  cbn [snd]. unfold slice.
  replace (j - (i + 1)) with 0 by lia.
  assert (Hempty : forall n s, substring n 0 s = "").
  { induction n as [|n IH]; intros s; destruct s; cbn; auto. }
  rewrite Hempty. reflexivity.
Qed.

Lemma reversed_brackets_give_no_address_witness :
  (index "<"%char "a>b <x@example.com>" = Some 4 /\
   index ">"%char "a>b <x@example.com>" = Some 1 /\
   1 <= 4) /\
  snd (_extract_email_address "a>b <x@example.com>") = "".
Proof.
  split.
  - split; [reflexivity | split; [reflexivity | lia]].
  - apply (@reversed_brackets_give_no_address "a>b <x@example.com>" 4 1);
      [reflexivity | reflexivity | lia].
Defined.

End AddressProofs.
